(** * Thrift-Store-Middleware: a GraphQL request-mediation proxy

    Shallow embedding of the two pipeline variants of the repository:
    - [src/main.go]: sanitise, audit, forward (module [Basic]);
    - [src/unnamed/part_000]: CORS policy, route gate, sanitise, client
      identity, sliding-window rate limiter, audit, forward with upstream
      CORS stripping (module [Limited]).

    Go values are embedded as follows.
    - [string] and [[]byte] are byte sequences: Rocq [string].
    - [time.Time] readings of the monotonic clock are nanosecond counts in
      [Z]; [time.Duration] is a 64-bit count of nanoseconds and
      [Time.Sub] saturates.
    - [map[string][]time.Time] and [http.Header] are [gmap]s; a missing
      key reads as the nil slice.
    - [map[string]interface{}] is a key-sorted association list under
      [option] ([None] is the nil map); [encoding/json] writes map keys
      in sorted order.
    - [float64] is [spec_float] at precision 53.
    - [httputil.ReverseProxy] is a function of what the exchange with
      the backend gives: the interim responses, then the final response
      or an error. *)

From Stdlib Require Import ZArith Ascii String List Lia Bool.
From Stdlib Require Import Floats.SpecFloat DecimalString OrderedTypeEx.
From stdpp Require Import base option gmap strings list fin_maps.

Set Warnings "-register-all".

Local Open Scope string_scope.
Local Open Scope list_scope.
Local Open Scope Z_scope.

(** ** [time]: instants and durations *)

Module GoTime.

Definition Time := Z.
Definition Duration := Z.

Definition minDuration : Duration := - 2 ^ 63.
Definition maxDuration : Duration := 2 ^ 63 - 1.

Definition Nanosecond : Duration := 1.
Definition Second : Duration := 1000000000 * Nanosecond.
Definition Minute : Duration := 60 * Second.

(** [t.Sub(u)]: the difference, clamped to the range of [Duration]. *)
Definition Sub (t u : Time) : Duration :=
  let d := t - u in
  if d <? minDuration then minDuration
  else if maxDuration <? d then maxDuration
  else d.

End GoTime.

Import GoTime.

(** ** The rate limiter of [part_000] *)

Module RateLimit.

Definition maxRequestsPerMinute : nat := 50.
Definition rateLimitWindow : Duration := Minute.

(** [rateLimitStore[ip]]: a missing key yields the nil slice. *)
Definition entry (ip : string) (store : gmap string (list Time)) : list Time :=
  default [] (store !! ip).

(** One iteration of the pruning loop (lines 74-78). *)
Definition keepRecent (now : Time) (recentRequests : list Time) (t : Time)
  : list Time :=
  if Sub now t <=? rateLimitWindow then recentRequests ++ [t]
  else recentRequests.

Definition pruned (now : Time) (requests : list Time) : list Time :=
  fold_left (keepRecent now) requests [].

(** The store after line 81. *)
Definition pruneStore (now : Time) (ip : string)
    (store : gmap string (list Time)) : gmap string (list Time) :=
  <[ip := pruned now (entry ip store)]> store.

(** [isRateLimited(ip)], with the clock reading of line 69 as [now].
    Returns the verdict ([true] = denied) and the store it leaves. *)
Definition isRateLimited (now : Time) (ip : string)
    (store : gmap string (list Time)) : bool * gmap string (list Time) :=
  let requests := entry ip store in
  let recentRequests := pruned now requests in
  let store1 := <[ip := recentRequests]> store in
  if (maxRequestsPerMinute <=? length recentRequests)%nat then (true, store1)
  else (false, <[ip := entry ip store1 ++ [now]]> store1).

(** A client's successive admission checks at the given clock readings. *)
Fixpoint checks (ip : string) (nows : list Time)
    (store : gmap string (list Time)) : list bool * gmap string (list Time) :=
  match nows with
  | [] => ([], store)
  | now :: rest =>
      let '(v, store1) := isRateLimited now ip store in
      let '(vs, store2) := checks ip rest store1 in
      (v :: vs, store2)
  end.

Definition inWindow (now t : Time) : Prop := Sub now t <= rateLimitWindow.

End RateLimit.

(** ** Byte-level helpers on Go strings *)

Module Bytes.

Definition bytes (s : string) : list ascii := list_ascii_of_string s.
Definition str (l : list ascii) : string := string_of_list_ascii l.

(** [strings.IndexByte]: index of the first occurrence, if any. *)
Fixpoint IndexByte (l : list ascii) (c : ascii) : option nat :=
  match l with
  | [] => None
  | x :: rest =>
      if Ascii.eqb x c then Some O
      else match IndexByte rest c with
           | Some i => Some (S i)
           | None => None
           end
  end.

(** [strings.LastIndexByte]: index of the last occurrence, if any. *)
Fixpoint LastIndexByte (l : list ascii) (c : ascii) : option nat :=
  match l with
  | [] => None
  | x :: rest =>
      match LastIndexByte rest c with
      | Some i => Some (S i)
      | None => if Ascii.eqb x c then Some O else None
      end
  end.

(** The slice [l[i:j]]. *)
Definition slice (i j : nat) (l : list ascii) : list ascii :=
  take (j - i) (drop i l).

Definition occurs (c : ascii) (l : list ascii) : bool :=
  existsb (Ascii.eqb c) l.

End Bytes.

Import Bytes.

(** ** [regexp]: single bracket expressions

    Both variants compile a pattern that is one bracket expression of
    ASCII literals.  The matcher decodes UTF-8, and every byte below
    0x80 is a rune of its own wherever the decoder stands (continuation
    and lead bytes are 0x80 and above, an invalid byte is consumed alone),
    so a match of such a class is exactly one byte of the class and
    [ReplaceAllString] can be followed byte by byte. *)

Module Regexp.

(** A class is a list of inclusive byte ranges. *)
Record Regexp := { ranges : list (ascii * ascii) }.

(** The items after the opening bracket.  A dash is a literal when it is
    the last item; otherwise [lo-hi] is a range.  Escapes, negation and
    nested classes are outside this fragment. *)
Fixpoint classItems (l : list ascii) : option (list (ascii * ascii)) :=
  match l with
  | [] => None
  | c :: rest =>
      if Ascii.eqb c "]" then
        match rest with [] => Some [] | _ => None end
      else if Ascii.eqb c "\" || Ascii.eqb c "[" || Ascii.eqb c "^" then None
      else
        match rest with
        | d :: hi :: rest' =>
            if Ascii.eqb d "-" && negb (Ascii.eqb hi "]") then
              match classItems rest' with
              | Some items => Some ((c, hi) :: items)
              | None => None
              end
            else
              match classItems rest with
              | Some items => Some ((c, c) :: items)
              | None => None
              end
        | _ =>
            match classItems rest with
            | Some items => Some ((c, c) :: items)
            | None => None
            end
        end
  end.

Definition Compile (pattern : string) : option Regexp :=
  match bytes pattern with
  | c :: rest =>
      if Ascii.eqb c "[" then
        match classItems rest with
        | Some items => Some {| ranges := items |}
        | None => None
        end
      else None
  | [] => None
  end.

(** [regexp.MustCompile] panics on a pattern that does not compile; the
    two patterns of the repository do compile (see [Sanitizer]). *)
Definition MustCompile (pattern : string) : Regexp :=
  default {| ranges := [] |} (Compile pattern).

Definition inRange (c : ascii) (r : ascii * ascii) : bool :=
  (N_of_ascii r.1 <=? N_of_ascii c)%N && (N_of_ascii c <=? N_of_ascii r.2)%N.

Definition MatchByte (re : Regexp) (c : ascii) : bool :=
  existsb (inRange c) (ranges re).

(** [re.ReplaceAllString(src, repl)] for a [repl] without [$]: the
    unmatched bytes are copied, each match is replaced by [repl]. *)
Fixpoint replaceAll (re : Regexp) (src : list ascii) (repl : list ascii)
  : list ascii :=
  match src with
  | [] => []
  | c :: rest =>
      if MatchByte re c then repl ++ replaceAll re rest repl
      else c :: replaceAll re rest repl
  end.

Definition ReplaceAllString (re : Regexp) (src repl : string) : string :=
  str (replaceAll re (bytes src) (bytes repl)).

End Regexp.

(** ** The sanitizer, in its two configurations *)

Module Sanitizer.

(** [part_000], line 29. *)
Definition dangerousChars : Regexp.Regexp := Regexp.MustCompile "[;&*+#=<>-]".

(** [main.go], line 27. *)
Definition dangerousCharsBasic : Regexp.Regexp := Regexp.MustCompile "[;]".

Definition sanitizeWith (re : Regexp.Regexp) (query : string) : string :=
  Regexp.ReplaceAllString re query "".

(** The denylists the two patterns stand for. *)
Definition denylist : list ascii :=
  [";"; "&"; "*"; "+"; "#"; "="; "<"; ">"; "-"]%char.

Definition denylistBasic : list ascii := [";"%char].

End Sanitizer.

(** ** [net.SplitHostPort] and the client identity *)

Module Net.

Record AddrError := { Err : string; Addr : string }.

Definition missingPort : string := "missing port in address".
Definition tooManyColons : string := "too many colons in address".

Definition addrErr {A} (addr why : string) : A + AddrError :=
  inr {| Err := why; Addr := addr |}.

(** The tail of [SplitHostPort] shared by both address forms: no stray
    bracket from [j] (resp. [k]) on, and the port is what follows the
    last colon. *)
Definition splitTail (hostport : string) (host : list ascii) (i j k : nat)
  : (string * string) + AddrError :=
  let l := bytes hostport in
  if IndexByte (drop j l) "[" is Some _ then
    addrErr hostport "unexpected '[' in address"
  else if IndexByte (drop k l) "]" is Some _ then
    addrErr hostport "unexpected ']' in address"
  else inl (str host, str (drop (S i) l)).

Definition SplitHostPort (hostport : string) : (string * string) + AddrError :=
  let l := bytes hostport in
  match LastIndexByte l ":" with
  | None => addrErr hostport missingPort
  | Some i =>
      if (if l !! O is Some c then Ascii.eqb c "[" else false) then
        match IndexByte l "]" with
        | None => addrErr hostport "missing ']' in address"
        | Some end_ =>
            if (S end_ =? length l)%nat then addrErr hostport missingPort
            else if (S end_ =? i)%nat then
              splitTail hostport (slice 1 end_ l) i 1 (S end_)
            else if (if l !! S end_ is Some c then Ascii.eqb c ":" else false)
            then addrErr hostport tooManyColons
            else addrErr hostport missingPort
        end
      else
        let host := take i l in
        if IndexByte host ":" is Some _ then addrErr hostport tooManyColons
        else splitTail hostport host i 0 0
  end.

End Net.

Module Identity.

(** [extractClientIP], lines 56-66 of [part_000]. *)
Definition extractClientIP (remoteAddr : string) : string :=
  match Net.SplitHostPort remoteAddr with
  | inr _ => remoteAddr
  | inl (ip, _) => if String.eqb ip "::1" then "127.0.0.1" else ip
  end.

End Identity.

(** ** [float64] and [strconv]

    [encoding/json] stores every JSON number held in an [interface{}] as a
    [float64] ([strconv.ParseFloat], correctly rounded to nearest-even)
    and writes a [float64] with the shortest decimal that parses back to
    it ([strconv.AppendFloat] with precision -1). *)

Module Float64.

Definition prec : Z := 53.
Definition emax : Z := 1024.

Definition isDigit (c : ascii) : bool :=
  (48 <=? N_of_ascii c)%N && (N_of_ascii c <=? 57)%N.

Definition digitVal (c : ascii) : Z := Z.of_N (N_of_ascii c) - 48.

Definition digitsToZ (ds : list ascii) : Z :=
  fold_left (fun acc c => acc * 10 + digitVal c) ds 0.

Definition zToDigits (n : Z) : list ascii :=
  bytes (NilZero.string_of_uint (N.to_uint (Z.to_N n))).

(** The float nearest to [m * 10^k], ties to even; overflow gives an
    infinity and underflow a zero.  A decimal whose leading digit sits
    above 10^310 or below 10^-330 is decided without the division. *)
Definition ofDecimal (neg : bool) (m k : Z) : spec_float :=
  match m with
  | Zpos _ =>
      let nd := Z.of_nat (length (zToDigits m)) in
      if 310 <? nd + k then S754_infinity neg
      else if nd + k <? -330 then S754_zero neg
      else if 0 <=? k then
        binary_round prec emax neg (Z.to_pos (m * 10 ^ k)) 0
      else
        let d := 10 ^ (- k) in
        let s := Z.log2 d + 66 in
        let q := (m * 2 ^ s) / d in
        let r := (m * 2 ^ s) mod d in
        let sticky := if r =? 0 then 0 else 1 in
        binary_round prec emax neg (Z.to_pos (2 * q + sticky)) (- s - 1)
  | _ => S754_zero neg
  end.

(** The exponent of a literal as [readFloat] accumulates it: digits are
    taken in while the running value is below 10000. *)
Definition readExponent (ds : list ascii) : Z :=
  fold_left (fun e c => if e <? 10000 then e * 10 + digitVal c else e) ds 0.

(** [strconv.ParseFloat(s, 64)] on a literal of the JSON number grammar,
    given by its parts.  [None] is the range error. *)
Definition ParseFloat (neg : bool) (int frac : list ascii)
    (expNeg : bool) (exp : list ascii) : option spec_float :=
  let e := readExponent exp in
  let k := (if expNeg then - e else e) - Z.of_nat (length frac) in
  match ofDecimal neg (digitsToZ (int ++ frac)) k with
  | S754_infinity _ => None
  | f => Some f
  end.

(** The value [m * 2^e] as a fraction. *)
Definition toRat (m : positive) (e : Z) : Z * Z :=
  if 0 <=? e then (Zpos m * 2 ^ e, 1) else (Zpos m, 2 ^ (- e)).

(** [10^d <= n / den]. *)
Definition pow10Le (d n den : Z) : bool :=
  if 0 <=? d then 10 ^ d * den <=? n else den <=? n * 10 ^ (- d).

Fixpoint decExpFrom (fuel : nat) (d n den : Z) : Z :=
  match fuel with
  | O => d
  | S fuel' =>
      if pow10Le (d + 1) n den then decExpFrom fuel' (d + 1) n den else d
  end.

(** The decimal exponent of [n / den]: the largest [d] with
    [10^d <= n / den]. *)
Definition decExp (n den : Z) : Z :=
  decExpFrom 8 (((Z.log2 n - Z.log2 den) * 30103) / 100000 - 2) n den.

Definition roundTrips (m : positive) (e : Z) (l k : Z) : bool :=
  SFeqb (ofDecimal false l k) (S754_finite false m e).

(** The candidate with [nd] digits, if one parses back to the float:
    the value cut after [nd] digits, rounded down or up; when both parse
    back, the nearer one, a tie going to the even digit. *)
Definition candidate (m : positive) (e : Z) (nd : Z) : option (Z * Z) :=
  let '(n, den) := toRat m e in
  let k := decExp n den - nd + 1 in
  let '(num, den') := if 0 <=? k then (n, den * 10 ^ k)
                      else (n * 10 ^ (- k), den) in
  let lo := num / den' in
  let r := num mod den' in
  if r =? 0 then Some (lo, k)
  else
    let okdown := roundTrips m e lo k in
    let okup := roundTrips m e (lo + 1) k in
    let up := match 2 * r ?= den' with
              | Lt => false
              | Gt => true
              | Eq => Z.odd lo
              end in
    if okdown && okup then Some (if up then lo + 1 else lo, k)
    else if okdown then Some (lo, k)
    else if okup then Some (lo + 1, k)
    else None.

Fixpoint shortestFrom (fuel : nat) (m : positive) (e : Z) (nd : Z) : Z * Z :=
  match fuel with
  | O => let '(n, den) := toRat m e in (n / den, 0)
  | S fuel' =>
      match candidate m e nd with
      | Some c => c
      | None => shortestFrom fuel' m e (nd + 1)
      end
  end.

Fixpoint stripZeros (fuel : nat) (l k : Z) : Z * Z :=
  match fuel with
  | O => (l, k)
  | S fuel' =>
      if (l mod 10 =? 0) && negb (l =? 0) then stripZeros fuel' (l / 10) (k + 1)
      else (l, k)
  end.

(** Shortest digits and the position of the decimal point: the value is
    [0.d1...dn * 10^dp]. *)
Definition shortest (m : positive) (e : Z) : list ascii * Z :=
  let '(l, k) := shortestFrom 17 m e 1 in
  let '(l', k') := stripZeros 20 l k in
  let ds := zToDigits l' in
  (ds, Z.of_nat (length ds) + k').

Definition zeros (n : Z) : list ascii := repeat "0"%char (Z.to_nat n).

(** [%f] with the shortest digits. *)
Definition fmtF (neg : bool) (ds : list ascii) (dp : Z) : list ascii :=
  let nd := Z.of_nat (length ds) in
  let int := if 0 <? dp then take (Z.to_nat dp) ds ++ zeros (dp - nd)
             else ["0"%char] in
  let frac := if dp <? nd then
                "."%char :: zeros (- dp) ++ drop (Z.to_nat dp) ds
              else [] in
  (if neg then ["-"%char] else []) ++ int ++ frac.

(** [%e] with the shortest digits; the exponent has two digits at least. *)
Definition fmtE (neg : bool) (ds : list ascii) (dp : Z) : list ascii :=
  let exp := dp - 1 in
  let first := take 1 ds in
  let rest := drop 1 ds in
  let mant := first ++ (if rest is [] then [] else "."%char :: rest) in
  let expDigits := zToDigits (Z.abs exp) in
  (if neg then ["-"%char] else []) ++ mant ++ ["e"%char]
  ++ [if exp <? 0 then "-"%char else "+"%char]
  ++ (if Z.abs exp <? 10 then "0"%char :: expDigits else expDigits).

(** The clean-up of [floatEncoder]: [e-09] becomes [e-9]. *)
Definition cleanExponent (b : list ascii) : list ascii :=
  match rev b with
  | d :: z :: s :: e :: front =>
      if Ascii.eqb e "e" && Ascii.eqb s "-" && Ascii.eqb z "0"
      then rev front ++ [e; s; d]
      else b
  | _ => b
  end.

(** [floatEncoder.encode] at 64 bits; [None] for a value JSON cannot
    hold. *)
Definition encodeFloat (f : spec_float) : option (list ascii) :=
  match f with
  | S754_nan | S754_infinity _ => None
  | S754_zero neg => Some (fmtF neg [] 0)
  | S754_finite neg m e =>
      let abs := S754_finite false m e in
      let '(ds, dp) := shortest m e in
      if SFltb abs (ofDecimal false 1 (-6)) || SFleb (ofDecimal false 1 21) abs
      then Some (cleanExponent (fmtE neg ds dp))
      else Some (fmtF neg ds dp)
  end.

End Float64.

(** ** [unicode/utf8] and [unicode/utf16] *)

Module UTF8.

Definition RuneError : Z := 65533.

Definition byteVal (c : ascii) : Z := Z.of_N (N_of_ascii c).
Definition byteOf (z : Z) : ascii := ascii_of_N (Z.to_N z).

Definition between (lo hi : Z) (c : ascii) : bool :=
  (lo <=? byteVal c) && (byteVal c <=? hi).

Definition low6 (c : ascii) : Z := Z.land (byteVal c) 63.

(** [utf8.DecodeRune]: the rune at the head and its width; an invalid or
    truncated encoding yields [(RuneError, 1)]. *)
Definition DecodeRune (l : list ascii) : Z * nat :=
  match l with
  | [] => (RuneError, O)
  | c0 :: rest =>
      let b0 := byteVal c0 in
      if b0 <? 128 then (b0, 1%nat)
      else if b0 <? 194 then (RuneError, 1%nat)
      else if b0 <? 224 then
        match rest with
        | c1 :: _ =>
            if between 128 191 c1
            then (Z.lor (Z.shiftl (Z.land b0 31) 6) (low6 c1), 2%nat)
            else (RuneError, 1%nat)
        | _ => (RuneError, 1%nat)
        end
      else if b0 <? 240 then
        let lo := if b0 =? 224 then 160 else 128 in
        let hi := if b0 =? 237 then 159 else 191 in
        match rest with
        | c1 :: c2 :: _ =>
            if between lo hi c1 && between 128 191 c2
            then (Z.lor (Z.shiftl (Z.land b0 15) 12)
                    (Z.lor (Z.shiftl (low6 c1) 6) (low6 c2)), 3%nat)
            else (RuneError, 1%nat)
        | _ => (RuneError, 1%nat)
        end
      else if b0 <? 245 then
        let lo := if b0 =? 240 then 144 else 128 in
        let hi := if b0 =? 244 then 143 else 191 in
        match rest with
        | c1 :: c2 :: c3 :: _ =>
            if between lo hi c1 && between 128 191 c2 && between 128 191 c3
            then (Z.lor (Z.shiftl (Z.land b0 7) 18)
                    (Z.lor (Z.shiftl (low6 c1) 12)
                       (Z.lor (Z.shiftl (low6 c2) 6) (low6 c3))), 4%nat)
            else (RuneError, 1%nat)
        | _ => (RuneError, 1%nat)
        end
      else (RuneError, 1%nat)
  end.

Definition cont (r : Z) (shift : Z) : ascii :=
  byteOf (Z.lor 128 (Z.land (Z.shiftr r shift) 63)).

(** [utf8.EncodeRune]; a surrogate or out-of-range rune is written as
    [RuneError]. *)
Definition EncodeRune (r : Z) : list ascii :=
  if (0 <=? r) && (r <=? 127) then [byteOf r]
  else if (0 <=? r) && (r <=? 2047) then
    [byteOf (Z.lor 192 (Z.shiftr r 6)); cont r 0]
  else if (r <? 0) || (1114111 <? r) || ((55296 <=? r) && (r <=? 57343)) then
    [byteOf 239; byteOf 191; byteOf 189]
  else if r <=? 65535 then
    [byteOf (Z.lor 224 (Z.shiftr r 12)); cont r 6; cont r 0]
  else
    [byteOf (Z.lor 240 (Z.shiftr r 18)); cont r 12; cont r 6; cont r 0].

(** [utf16.IsSurrogate] and [utf16.DecodeRune]. *)
Definition IsSurrogate (r : Z) : bool := (55296 <=? r) && (r <? 57344).

Definition DecodeSurrogates (r1 r2 : Z) : Z :=
  if (55296 <=? r1) && (r1 <? 56320) && (56320 <=? r2) && (r2 <? 57344)
  then Z.lor (Z.shiftl (r1 - 55296) 10) (r2 - 56320) + 65536
  else RuneError.

End UTF8.

(** ** [encoding/json] on [map[string]interface{}] *)

Module JSON.

Import UTF8.

(** The dynamic values [Unmarshal] stores in an [interface{}]: [nil],
    [bool], [float64], [string], [[]interface{}] and
    [map[string]interface{}]. *)
Inductive Value :=
| VNil
| VBool (b : bool)
| VFloat64 (f : spec_float)
| VString (s : string)
| VSlice (l : list Value)
| VMap (m : list (string * Value)).

(** *** Maps as key-sorted association lists *)

(** [m[k]], with the comma-ok result as [option]. *)
Fixpoint lookup (k : string) (m : list (string * Value)) : option Value :=
  match m with
  | [] => None
  | (k', v) :: rest => if String.eqb k k' then Some v else lookup k rest
  end.

(** [m[k] = v]. *)
Fixpoint assign (k : string) (v : Value) (m : list (string * Value))
  : list (string * Value) :=
  match m with
  | [] => [(k, v)]
  | (k', v') :: rest =>
      match String.compare k k' with
      | Eq => (k, v) :: rest
      | Lt => (k, v) :: (k', v') :: rest
      | Gt => (k', v') :: assign k v rest
      end
  end.

(** *** Decoding *)

Definition isSpace (c : ascii) : bool :=
  Ascii.eqb c " " || Ascii.eqb c "009" || Ascii.eqb c "013" || Ascii.eqb c "010".

Fixpoint skipSpace (l : list ascii) : list ascii :=
  match l with
  | c :: rest => if isSpace c then skipSpace rest else l
  | [] => []
  end.

Definition hexVal (c : ascii) : option Z :=
  if between 48 57 c then Some (byteVal c - 48)
  else if between 97 102 c then Some (byteVal c - 97 + 10)
  else if between 65 70 c then Some (byteVal c - 65 + 10)
  else None.

(** [getu4]: the code unit of a [\uXXXX] escape at the head. *)
Definition getu4 (l : list ascii) : option Z :=
  match l with
  | b :: u :: h1 :: h2 :: h3 :: h4 :: _ =>
      if Ascii.eqb b "\" && Ascii.eqb u "u" then
        match hexVal h1, hexVal h2, hexVal h3, hexVal h4 with
        | Some a, Some b, Some c, Some d => Some (((a * 16 + b) * 16 + c) * 16 + d)
        | _, _, _, _ => None
        end
      else None
  | _ => None
  end.

Definition simpleEscape (e : ascii) : option ascii :=
  if Ascii.eqb e "034" || Ascii.eqb e "\" || Ascii.eqb e "/" then Some e
  else if Ascii.eqb e "b" then Some "008"%char
  else if Ascii.eqb e "f" then Some "012"%char
  else if Ascii.eqb e "n" then Some "010"%char
  else if Ascii.eqb e "r" then Some "013"%char
  else if Ascii.eqb e "t" then Some "009"%char
  else None.

(** A string literal from behind its opening quote: the scanner's checks
    and [unquote] in one pass.  Returns the decoded bytes and the input
    behind the closing quote. *)
Fixpoint unquote (fuel : nat) (l acc : list ascii)
  : option (list ascii * list ascii) :=
  match fuel with
  | O => None
  | S fuel' =>
      match l with
      | [] => None
      | c :: rest =>
          if Ascii.eqb c "034" then Some (acc, rest)
          else if Ascii.eqb c "\" then
            match rest with
            | [] => None
            | e :: rest' =>
                if Ascii.eqb e "u" then
                  match getu4 l with
                  | None => None
                  | Some rr =>
                      let after := drop 6 l in
                      if IsSurrogate rr then
                        let dec := match getu4 after with
                                   | Some rr1 => DecodeSurrogates rr rr1
                                   | None => RuneError
                                   end in
                        if dec =? RuneError
                        then unquote fuel' after (acc ++ EncodeRune RuneError)
                        else unquote fuel' (drop 6 after) (acc ++ EncodeRune dec)
                      else unquote fuel' after (acc ++ EncodeRune rr)
                  end
                else
                  match simpleEscape e with
                  | Some b => unquote fuel' rest' (acc ++ [b])
                  | None => None
                  end
            end
          else if byteVal c <? 32 then None
          else if byteVal c <? 128 then unquote fuel' rest (acc ++ [c])
          else
            let '(r, size) := DecodeRune l in
            unquote fuel' (drop size l) (acc ++ EncodeRune r)
      end
  end.

Fixpoint spanDigits (l : list ascii) : list ascii * list ascii :=
  match l with
  | c :: rest =>
      if Float64.isDigit c then
        let '(ds, r) := spanDigits rest in (c :: ds, r)
      else ([], l)
  | [] => ([], [])
  end.

(** A number literal at the head, converted as [convertNumber] does: a
    literal outside the range of [float64] is stored as [nil]. *)
Definition number (l : list ascii) : option (Value * list ascii) :=
  let '(neg, l1) := match l with
                    | c :: r => if Ascii.eqb c "-" then (true, r) else (false, l)
                    | [] => (false, l)
                    end in
  match l1 with
  | [] => None
  | c :: r =>
      if negb (Float64.isDigit c) then None
      else
        let '(int, l2) := if Ascii.eqb c "0" then ([c], r)
                          else let '(ds, r') := spanDigits r in (c :: ds, r') in
        let frac_l3 :=
          match l2 with
          | d :: r2 =>
              if Ascii.eqb d "." then
                let '(fs, r3) := spanDigits r2 in
                if fs is [] then None else Some (fs, r3)
              else Some ([], l2)
          | [] => Some ([], l2)
          end in
        match frac_l3 with
        | None => None
        | Some (frac, l3) =>
            let exp_l4 :=
              match l3 with
              | e :: r3 =>
                  if Ascii.eqb e "e" || Ascii.eqb e "E" then
                    let '(expNeg, r4) :=
                      match r3 with
                      | s :: r4 =>
                          if Ascii.eqb s "-" then (true, r4)
                          else if Ascii.eqb s "+" then (false, r4)
                          else (false, r3)
                      | [] => (false, r3)
                      end in
                    let '(es, r5) := spanDigits r4 in
                    if es is [] then None else Some (expNeg, es, r5)
                  else Some (false, [], l3)
              | [] => Some (false, [], l3)
              end in
            match exp_l4 with
            | None => None
            | Some (expNeg, es, l4) =>
                match Float64.ParseFloat neg int frac expNeg es with
                | Some f => Some (VFloat64 f, l4)
                | None => Some (VNil, l4)
                end
            end
        end
  end.

(** [l] with the literal [lit] taken off its head. *)
Fixpoint literal (lit l : list ascii) : option (list ascii) :=
  match lit, l with
  | [], _ => Some l
  | a :: lit', b :: l' => if Ascii.eqb a b then literal lit' l' else None
  | _ :: _, [] => None
  end.

Definition maxNestingDepth : N := 10000.

(** One JSON value at the head of [l] (white space skipped), decoded into
    an [interface{}]; [members] and [elements] read the inside of an
    object and of an array.  [depth] counts the open brackets. *)
Fixpoint value (fuel : nat) (depth : N) (l : list ascii) {struct fuel}
  : option (Value * list ascii) :=
  match fuel with
  | O => None
  | S fuel' =>
      match skipSpace l with
      | [] => None
      | c :: rest =>
          if Ascii.eqb c "{" then
            if (maxNestingDepth <? depth + 1)%N then None
            else
              match skipSpace rest with
              | [] => None
              | c' :: rest' =>
                  if Ascii.eqb c' "}" then Some (VMap [], rest')
                  else members fuel' (depth + 1)%N (c' :: rest') []
              end
          else if Ascii.eqb c "[" then
            if (maxNestingDepth <? depth + 1)%N then None
            else
              match skipSpace rest with
              | [] => None
              | c' :: rest' =>
                  if Ascii.eqb c' "]" then Some (VSlice [], rest')
                  else elements fuel' (depth + 1)%N (c' :: rest') []
              end
          else if Ascii.eqb c "034" then
            match unquote (S (length rest)) rest [] with
            | Some (s, r) => Some (VString (str s), r)
            | None => None
            end
          else if Ascii.eqb c "t" then
            option_map (pair (VBool true)) (literal (bytes "rue") rest)
          else if Ascii.eqb c "f" then
            option_map (pair (VBool false)) (literal (bytes "alse") rest)
          else if Ascii.eqb c "n" then
            option_map (pair VNil) (literal (bytes "ull") rest)
          else number (c :: rest)
      end
  end
with members (fuel : nat) (depth : N) (l : list ascii)
    (acc : list (string * Value)) {struct fuel}
  : option (Value * list ascii) :=
  match fuel with
  | O => None
  | S fuel' =>
      match l with
      | [] => None
      | q :: rest =>
          if negb (Ascii.eqb q "034") then None
          else
            match unquote (S (length rest)) rest [] with
            | None => None
            | Some (k, r1) =>
                match skipSpace r1 with
                | [] => None
                | colon :: r2 =>
                    if negb (Ascii.eqb colon ":") then None
                    else
                      match value fuel' depth r2 with
                      | None => None
                      | Some (v, r3) =>
                          let acc' := assign (str k) v acc in
                          match skipSpace r3 with
                          | [] => None
                          | sep :: r4 =>
                              if Ascii.eqb sep "," then
                                members fuel' depth (skipSpace r4) acc'
                              else if Ascii.eqb sep "}" then Some (VMap acc', r4)
                              else None
                          end
                      end
                end
            end
      end
  end
with elements (fuel : nat) (depth : N) (l : list ascii) (acc : list Value)
    {struct fuel} : option (Value * list ascii) :=
  match fuel with
  | O => None
  | S fuel' =>
      match value fuel' depth l with
      | None => None
      | Some (v, r) =>
          match skipSpace r with
          | [] => None
          | sep :: r' =>
              if Ascii.eqb sep "," then elements fuel' depth r' (acc ++ [v])
              else if Ascii.eqb sep "]" then Some (VSlice (acc ++ [v]), r')
              else None
          end
      end
  end.

(** The whole input as one JSON text: a value, then white space only. *)
Definition decode (data : list ascii) : option Value :=
  match value (2 * length data + 2) 0 data with
  | Some (v, rest) => if skipSpace rest is [] then Some v else None
  | None => None
  end.

(** [json.Valid]. *)
Definition Valid (data : string) : bool := bool_decide (is_Some (decode (bytes data))).

(** [json.Unmarshal(data, &payload)] for a nil [payload] of type
    [map[string]interface{}].  A syntax error leaves the map nil; so do
    [null] and every text that is not an object (a type error).  The
    handlers discard the returned error, which is not modelled. *)
Definition Unmarshal (data : string) : option (list (string * Value)) :=
  match decode (bytes data) with
  | Some (VMap m) => Some m
  | _ => None
  end.

(** *** Encoding *)

Definition hexDigit (n : Z) : ascii :=
  nth (Z.to_nat n) (bytes "0123456789abcdef") "0"%char.

(** [htmlSafeSet]: the ASCII bytes written as they are. *)
Definition htmlSafe (c : ascii) : bool :=
  between 32 127 c
  && negb (Ascii.eqb c "034" || Ascii.eqb c "&" || Ascii.eqb c "<"
           || Ascii.eqb c ">" || Ascii.eqb c "\").

Definition escapeByte (c : ascii) : list ascii :=
  if Ascii.eqb c "\" || Ascii.eqb c "034" then ["\"%char; c]
  else if Ascii.eqb c "008" then bytes "\b"
  else if Ascii.eqb c "012" then bytes "\f"
  else if Ascii.eqb c "010" then bytes "\n"
  else if Ascii.eqb c "013" then bytes "\r"
  else if Ascii.eqb c "009" then bytes "\t"
  else bytes "\u00" ++ [hexDigit (Z.shiftr (byteVal c) 4);
                          hexDigit (Z.land (byteVal c) 15)].

(** The inside of [appendString] with HTML escaping on. *)
Fixpoint escapeString (fuel : nat) (src : list ascii) : list ascii :=
  match fuel with
  | O => []
  | S fuel' =>
      match src with
      | [] => []
      | c :: rest =>
          if byteVal c <? 128 then
            (if htmlSafe c then [c] else escapeByte c) ++ escapeString fuel' rest
          else
            let '(r, size) := DecodeRune src in
            if (r =? RuneError) && (size =? 1)%nat then
              bytes "\ufffd" ++ escapeString fuel' rest
            else if (r =? 8232) || (r =? 8233) then
              bytes "\u202" ++ [hexDigit (Z.land r 15)]
              ++ escapeString fuel' (drop size src)
            else take size src ++ escapeString fuel' (drop size src)
      end
  end.

Definition appendString (s : string) : list ascii :=
  let src := bytes s in
  "034"%char :: escapeString (length src) src ++ ["034"%char].

Definition joinComma (parts : list (list ascii)) : list ascii :=
  match parts with
  | [] => []
  | p :: rest => p ++ flat_map (fun q => ","%char :: q) rest
  end.

(** The encoder of an [interface{}] value; [None] is the
    [UnsupportedValueError] of a NaN or an infinity.  A map is written
    with its keys in sorted order, which is the order the association
    list keeps. *)
Fixpoint encode (v : Value) : option (list ascii) :=
  match v with
  | VNil => Some (bytes "null")
  | VBool b => Some (bytes (if b then "true" else "false"))
  | VFloat64 f => Float64.encodeFloat f
  | VString s => Some (appendString s)
  | VSlice l =>
      let fix items (l : list Value) : option (list (list ascii)) :=
        match l with
        | [] => Some []
        | x :: rest =>
            match encode x, items rest with
            | Some b, Some bs => Some (b :: bs)
            | _, _ => None
            end
        end in
      match items l with
      | Some bs => Some ("["%char :: joinComma bs ++ ["]"%char])
      | None => None
      end
  | VMap m =>
      let fix fields (m : list (string * Value)) : option (list (list ascii)) :=
        match m with
        | [] => Some []
        | (k, x) :: rest =>
            match encode x, fields rest with
            | Some b, Some bs => Some ((appendString k ++ ":"%char :: b) :: bs)
            | _, _ => None
            end
        end in
      match fields m with
      | Some bs => Some ("{"%char :: joinComma bs ++ ["}"%char])
      | None => None
      end
  end.

(** [json.Marshal(payload)] for a [map[string]interface{}]; the nil map
    is written as [null]. *)
Definition Marshal (payload : option (list (string * Value))) : option string :=
  match payload with
  | None => Some "null"
  | Some m => option_map str (encode (VMap m))
  end.

End JSON.

(** ** [net/http]: headers, requests, the response writer *)

Module HTTP.

Import UTF8.

Definition StatusOK : Z := 200.
Definition StatusNotFound : Z := 404.
Definition StatusTooManyRequests : Z := 429.
Definition StatusBadGateway : Z := 502.

Definition MethodOptions : string := "OPTIONS".
Definition MethodPost : string := "POST".

(** [validHeaderFieldByte]: the token characters of RFC 7230. *)
Definition validHeaderFieldByte (c : ascii) : bool :=
  between 48 57 c || between 65 90 c || between 97 122 c
  || occurs c (bytes "!#$%&'*+-.^_`|~").

Fixpoint canonicalCase (upper : bool) (l : list ascii) : list ascii :=
  match l with
  | [] => []
  | c :: rest =>
      let c' := if upper && between 97 122 c then byteOf (byteVal c - 32)
                else if negb upper && between 65 90 c then byteOf (byteVal c + 32)
                else c in
      c' :: canonicalCase (Ascii.eqb c' "-") rest
  end.

(** [textproto.CanonicalMIMEHeaderKey]: a key of token characters gets an
    upper-case letter first and after each dash, lower case elsewhere;
    any other key is left as it is. *)
Definition CanonicalMIMEHeaderKey (s : string) : string :=
  if forallb validHeaderFieldByte (bytes s) then str (canonicalCase true (bytes s))
  else s.

(** [Header.Set], [Header.Del], [Header.Add] and [Header.Values] on
    [http.Header], a map from canonical keys to the values in order. *)
Definition Set_ (key value : string) (h : gmap string (list string))
  : gmap string (list string) :=
  <[CanonicalMIMEHeaderKey key := [value]]> h.

Definition Del (key : string) (h : gmap string (list string))
  : gmap string (list string) :=
  delete (CanonicalMIMEHeaderKey key) h.

Definition Values (key : string) (h : gmap string (list string)) : list string :=
  default [] (h !! CanonicalMIMEHeaderKey key).

(** [copyHeader(dst, src)] of [httputil]: every value of [src] is added
    behind the values [dst] holds under the same key. *)
Definition copyHeader (dst src : gmap string (list string))
  : gmap string (list string) :=
  union_with (fun d s => Some (d ++ s)) dst src.

(** The server's view of a request: [r.Method], [r.URL.Path], [r.Header],
    [r.Body] ([None] is the nil body; otherwise the bytes [io.ReadAll]
    returns), [r.ContentLength] and [r.RemoteAddr]. *)
Record Request := {
  Method : string;
  Path : string;
  Header : gmap string (list string);
  Body : option string;
  ContentLength : Z;
  RemoteAddr : string
}.

(** An upstream [*http.Response] as [ModifyResponse] receives it, the
    proxy's header hygiene done.  The [Trailer] announcement, which the
    proxy puts back behind the hook, counts as part of the header: the
    repository's hook leaves that key alone.  Trailers themselves follow
    the body and are not modelled. *)
Record Response := {
  StatusCode : Z;
  RespHeader : gmap string (list string);
  RespBody : string
}.

(** An interim (1xx) response: its status and its header. *)
Record Interim := {
  InterimCode : Z;
  InterimHeader : gmap string (list string)
}.

(** What the proxy gets of one exchange with the backend: the interim
    responses in order, each handed to the [Got1xxResponse] hook as it
    arrives, and then the final response, or [None] when the proxy ends
    in its error handler - the round trip failed, or the backend switched
    to a protocol that was not asked for.  The transport hands the hook
    the 1xx statuses other than 101 and never returns one of them as the
    final response. *)
Record RoundTrip := {
  Got1xx : list Interim;
  Result : option Response
}.

(** What a handler has sent through its [http.ResponseWriter]: the header
    map, the interim responses sent so far, the status once written, and
    the body bytes. *)
Record ResponseWriter := {
  wHeader : gmap string (list string);
  wInterim : list Interim;
  wStatus : option Z;
  wBody : string
}.

Definition newResponseWriter : ResponseWriter :=
  {| wHeader := ∅; wInterim := []; wStatus := None; wBody := "" |}.

Definition withHeader (f : gmap string (list string) -> gmap string (list string))
    (w : ResponseWriter) : ResponseWriter :=
  {| wHeader := f (wHeader w); wInterim := wInterim w;
     wStatus := wStatus w; wBody := wBody w |}.

(** [w.WriteHeader(code)] with a final status: the first one written
    stands. *)
Definition WriteHeader (code : Z) (w : ResponseWriter) : ResponseWriter :=
  {| wHeader := wHeader w;
     wInterim := wInterim w;
     wStatus := Some (default code (wStatus w));
     wBody := wBody w |}.

(** [w.WriteHeader(code)] with an informational status (1xx other than
    101) before the final one: the header map as it stands goes out under
    that status, less [Content-Length] and [Transfer-Encoding]; the map
    is kept and the final status stays open.  Once the final status is
    written the call does nothing. *)
Definition WriteHeader1xx (code : Z) (w : ResponseWriter) : ResponseWriter :=
  match wStatus w with
  | Some _ => w
  | None =>
      {| wHeader := wHeader w;
         wInterim := wInterim w
                     ++ [{| InterimCode := code;
                            InterimHeader :=
                              delete "Content-Length"
                                (delete "Transfer-Encoding" (wHeader w)) |}];
         wStatus := None;
         wBody := wBody w |}
  end.

(** [w.Write(b)]: writes status 200 first if none was written. *)
Definition Write_ (b : string) (w : ResponseWriter) : ResponseWriter :=
  {| wHeader := wHeader w;
     wInterim := wInterim w;
     wStatus := Some (default StatusOK (wStatus w));
     wBody := wBody w +:+ b |}.

(** [http.Error(w, error, code)]. *)
Definition Error (error : string) (code : Z) (w : ResponseWriter)
  : ResponseWriter :=
  let w := withHeader (Del "Content-Length") w in
  let w := withHeader (Set_ "Content-Type" "text/plain; charset=utf-8") w in
  let w := withHeader (Set_ "X-Content-Type-Options" "nosniff") w in
  let w := WriteHeader code w in
  Write_ (error +:+ str ["010"%char]) w.

(** The [Got1xxResponse] hook of [ReverseProxy.ServeHTTP]: the interim
    header is added to the writer's header map, the map is sent under the
    interim status, and then every key of the map is deleted - the keys
    the handler had set before it called the proxy included. *)
Definition got1xxResponse (w : ResponseWriter) (i : Interim) : ResponseWriter :=
  let w := withHeader (fun h => copyHeader h (InterimHeader i)) w in
  let w := WriteHeader1xx (InterimCode i) w in
  withHeader (fun _ => ∅) w.

(** [ReverseProxy.ServeHTTP(w, r)] as far as the handlers depend on it.
    [upstream] stands for the round trip to the backend: the director's
    rewrite onto the target, the transport, and the proxy's own header
    hygiene on both legs.  The interim responses pass through the hook
    first; a failed round trip is then answered by the default error
    handler with 502, and a final response goes through
    [modifyResponse], has its header added to the writer's map and is
    written with its status and body.  [modifyResponse] is the hook the
    handler installs; the repository's hook never returns an error. *)
Definition ServeHTTP (upstream : Request -> RoundTrip)
    (modifyResponse : Response -> Response)
    (w : ResponseWriter) (r : Request) : ResponseWriter :=
  let trip := upstream r in
  let w := fold_left got1xxResponse (Got1xx trip) w in
  match Result trip with
  | None => WriteHeader StatusBadGateway w
  | Some res =>
      let res := modifyResponse res in
      let w := withHeader (fun h => copyHeader h (RespHeader res)) w in
      let w := WriteHeader (StatusCode res) w in
      Write_ (RespBody res) w
  end.

End HTTP.

(** ** The request pipeline *)

Module Pipeline.

Import JSON HTTP.

(** The arguments of one [go logToMongo(ctx, ip, raw, sanitized)]. *)
Record AuditCall := {
  auditIP : string;
  auditRaw : string;
  auditSanitized : string
}.

(** The state the handlers share and the effects they leave: the
    rate-limit table, the audit calls dispatched so far, and the requests
    handed to the proxy so far. *)
Record World := {
  rateLimitStore : gmap string (list Time);
  audits : list AuditCall;
  forwarded : list Request
}.

(** Lines 119-123 (56-60 in [main.go]). *)
Definition readBody (r : Request) : string :=
  match Body r with
  | Some b => b
  | None => ""
  end.

(** Lines 124-134 (61-71): decode, pick the string [query], sanitise it
    and write it back.  Returns [originalQuery], [cleanedQuery] and the
    payload. *)
Definition rewrite (sanitize : string -> string) (bodyBytes : string)
  : string * string * option (list (string * Value)) :=
  let payload := Unmarshal bodyBytes in
  match payload with
  | Some m =>
      match lookup "query" m with
      | Some (VString query) =>
          let cleanedQuery := sanitize query in
          (query, cleanedQuery, Some (assign "query" (VString cleanedQuery) m))
      | _ => ("", "", payload)
      end
  | None => ("", "", payload)
  end.

(** Lines 136-138 (73-75): the re-encoded body and its length replace
    the request's.  A failed [Marshal] leaves [newBody] nil. *)
Definition newBody (payload : option (list (string * Value))) : string :=
  default "" (Marshal payload).

Definition withBody (r : Request) (body : string) : Request :=
  {| Method := Method r;
     Path := Path r;
     Header := Header r;
     Body := Some body;
     ContentLength := Z.of_nat (String.length body);
     RemoteAddr := RemoteAddr r |}.

Definition routed (r : Request) : bool :=
  String.eqb (Method r) MethodPost && String.eqb (Path r) "/public".

End Pipeline.

(** *** [src/main.go]: sanitise, audit, forward *)

Module Basic.

Import JSON HTTP Pipeline.

Definition sanitizeGraphQLQuery (query : string) : string :=
  Sanitizer.sanitizeWith Sanitizer.dangerousCharsBasic query.

Definition graphqlMiddleware (upstream : Request -> RoundTrip)
    (r : Request) (world : World) : ResponseWriter * World :=
  let w := newResponseWriter in
  if negb (routed r) then (Error "Not Found" StatusNotFound w, world)
  else
    let bodyBytes := readBody r in
    let '(originalQuery, cleanedQuery, payload) :=
      rewrite sanitizeGraphQLQuery bodyBytes in
    let r := withBody r (newBody payload) in
    let call := {| auditIP := RemoteAddr r; auditRaw := originalQuery;
                   auditSanitized := cleanedQuery |} in
    (ServeHTTP upstream id w r,
     {| rateLimitStore := rateLimitStore world;
        audits := audits world ++ [call];
        forwarded := forwarded world ++ [r] |}).

End Basic.

(** *** [src/unnamed/part_000]: CORS, rate limit, sanitise, audit, forward *)

Module Limited.

Import JSON HTTP Pipeline.

Definition sanitizeGraphQLQuery (query : string) : string :=
  Sanitizer.sanitizeWith Sanitizer.dangerousChars query.

(** The [ModifyResponse] hook, lines 96-102. *)
Definition ModifyResponse (resp : Response) : Response :=
  let h := RespHeader resp in
  let h := Del "Access-Control-Allow-Origin" h in
  let h := Del "Access-Control-Allow-Methods" h in
  let h := Del "Access-Control-Allow-Headers" h in
  let h := Del "Access-Control-Allow-Credentials" h in
  {| StatusCode := StatusCode resp; RespHeader := h; RespBody := RespBody resp |}.

(** Lines 105-107. *)
Definition setOriginPolicy (w : ResponseWriter) : ResponseWriter :=
  let w := withHeader (Set_ "Access-Control-Allow-Origin" "http://localhost:3000") w in
  let w := withHeader (Set_ "Access-Control-Allow-Methods" "POST, OPTIONS") w in
  withHeader (Set_ "Access-Control-Allow-Headers" "Content-Type, Authorization") w.

(** The handler, lines 104-147; [now] is the clock reading inside
    [isRateLimited]. *)
Definition graphqlMiddleware (upstream : Request -> RoundTrip)
    (now : Time) (r : Request) (world : World) : ResponseWriter * World :=
  let w := setOriginPolicy newResponseWriter in
  if String.eqb (Method r) MethodOptions then (WriteHeader StatusOK w, world)
  else if negb (routed r) then (Error "Not Found" StatusNotFound w, world)
  else
    let bodyBytes := readBody r in
    let '(originalQuery, cleanedQuery, payload) :=
      rewrite sanitizeGraphQLQuery bodyBytes in
    let r := withBody r (newBody payload) in
    let ip := Identity.extractClientIP (RemoteAddr r) in
    let '(limited, store) :=
      RateLimit.isRateLimited now ip (rateLimitStore world) in
    if limited then
      (Error "Rate limit exceeded" StatusTooManyRequests w,
       {| rateLimitStore := store;
          audits := audits world;
          forwarded := forwarded world |})
    else
      let call := {| auditIP := ip; auditRaw := originalQuery;
                     auditSanitized := cleanedQuery |} in
      (ServeHTTP upstream ModifyResponse w r,
       {| rateLimitStore := store;
          audits := audits world ++ [call];
          forwarded := forwarded world ++ [r] |}).

End Limited.

(** ** Handler goroutines inside [isRateLimited]

    [net/http] runs each handler in a goroutine of its own and
    [rateLimitStore] is a plain map with no lock around it.  The steps
    below are the points at which one call touches the shared map: the
    read at line 70, the write at line 81, and the read and write at line
    89 (taken as one step).  A schedule is the order in which the
    goroutines take their steps; the map operations themselves do not
    overlap. *)

Module Concurrent.

Import RateLimit.

(** Where one call of [isRateLimited] stands, with its locals. *)
Inductive Goroutine :=
| Start (now : Time)
| Loaded (now : Time) (requests : list Time)
| Pruned (now : Time) (recentRequests : list Time)
| Returned (limited : bool).

Record Config := {
  store : gmap string (list Time);
  goroutines : list Goroutine
}.

(** Goroutine [i] takes its next step; all calls are for the client [ip]. *)
Definition step (ip : string) (c : Config) (i : nat) : Config :=
  match goroutines c !! i with
  | Some (Start now) =>
      {| store := store c;
         goroutines := <[i := Loaded now (entry ip (store c))]> (goroutines c) |}
  | Some (Loaded now requests) =>
      let recentRequests := pruned now requests in
      {| store := <[ip := recentRequests]> (store c);
         goroutines := <[i := Pruned now recentRequests]> (goroutines c) |}
  | Some (Pruned now recentRequests) =>
      if (maxRequestsPerMinute <=? length recentRequests)%nat then
        {| store := store c;
           goroutines := <[i := Returned true]> (goroutines c) |}
      else
        {| store := <[ip := entry ip (store c) ++ [now]]> (store c);
           goroutines := <[i := Returned false]> (goroutines c) |}
  | Some (Returned _) | None => c
  end.

Definition run (ip : string) (schedule : list nat) (c : Config) : Config :=
  fold_left (step ip) schedule c.

(** One goroutine per request, none started yet. *)
Definition spawn (nows : list Time) (table : gmap string (list Time)) : Config :=
  {| store := table; goroutines := map Start nows |}.

Definition returned (g : Goroutine) : bool :=
  match g with Returned _ => true | _ => false end.

Definition admitted (g : Goroutine) : bool :=
  match g with Returned false => true | _ => false end.

Definition denied (g : Goroutine) : bool :=
  match g with Returned true => true | _ => false end.

Definition count (p : Goroutine -> bool) (c : Config) : nat :=
  length (List.filter p (goroutines c)).

(** Every goroutine runs its three steps before the next one starts: the
    order a lock around the call would enforce. *)
Definition oneAtATime (first n : nat) : list nat :=
  flat_map (fun i => [i; i; i]) (seq first n).

(** All goroutines read the table first, then each finishes. *)
Definition readThenFinish (n : nat) : list nat :=
  seq 0 n ++ flat_map (fun i => [i; i]) (seq 0 n).

End Concurrent.

(** ** Sample inputs *)

Module Samples.

Import HTTP Pipeline.

(** JSON texts are written with an apostrophe for each double quote. *)
Definition dq (s : string) : string :=
  str (map (fun c => if Ascii.eqb c "'" then "034"%char else c) (bytes s)).

Definition post (remote body : string) : Request :=
  {| Method := "POST"; Path := "/public"; Header := ∅; Body := Some body;
     ContentLength := Z.of_nat (String.length body); RemoteAddr := remote |}.

Definition fresh : World :=
  {| rateLimitStore := ∅; audits := []; forwarded := [] |}.

(** A backend that answers 200 with the body it was sent and some CORS
    headers of its own. *)
Definition echoResponse (body : string) : Response :=
  {| StatusCode := 200;
     RespHeader := {[ "Access-Control-Allow-Origin" := ["*"];
                      "Access-Control-Max-Age" := ["600"];
                      "Content-Type" := ["application/json"] ]};
     RespBody := body |}.

Definition echo (r : Request) : RoundTrip :=
  {| Got1xx := []; Result := Some (echoResponse (default "" (Body r))) |}.

End Samples.


(** * Properties *)

(** ** Clock arithmetic *)

Module GoTimeFacts.

Lemma Sub_refl t : Sub t t = 0.
Proof. unfold Sub. replace (t - t) with 0 by lia. reflexivity. Qed.

Lemma Sub_le_Minute t u : Sub t u <= Minute <-> t - u <= Minute.
Proof.
  unfold Sub, Minute, Second, Nanosecond, minDuration, maxDuration.
  repeat case_match; lia.
Qed.

Lemma Sub_nonneg t u : u <= t -> 0 <= Sub t u.
Proof.
  unfold Sub, minDuration, maxDuration. intros.
  repeat case_match; lia.
Qed.

End GoTimeFacts.

(** ** The rate limiter *)

Module RateLimitFacts.

Import RateLimit.

#[global] Instance inWindow_dec now t : Decision (inWindow now t).
Proof. unfold inWindow. apply _. Defined.

Lemma fold_keepRecent now requests acc :
  fold_left (keepRecent now) requests acc
  = acc ++ List.filter (fun t => Sub now t <=? rateLimitWindow) requests.
Proof.
  revert acc. induction requests as [|t rest IH]; intros acc; simpl.
  - by rewrite app_nil_r.
  - rewrite IH. unfold keepRecent.
    destruct (Sub now t <=? rateLimitWindow); simpl; [|done].
    by rewrite <- app_assoc.
Qed.

Lemma pruned_filter now requests :
  pruned now requests
  = List.filter (fun t => Sub now t <=? rateLimitWindow) requests.
Proof. unfold pruned. by rewrite fold_keepRecent. Qed.

Lemma pruned_all_recent now requests :
  Forall (inWindow now) requests -> pruned now requests = requests.
Proof.
  rewrite pruned_filter. induction 1 as [|t rest Ht _ IH]; simpl; [done|].
  unfold inWindow in Ht. apply Z.leb_le in Ht. rewrite Ht. by f_equal.
Qed.

Lemma pruned_all_stale now requests :
  Forall (fun t => ~ inWindow now t) requests -> pruned now requests = [].
Proof.
  rewrite pruned_filter. induction 1 as [|t rest Ht _ IH]; simpl; [done|].
  unfold inWindow in Ht. apply Z.leb_nle in Ht. by rewrite Ht.
Qed.

Lemma pruned_inWindow now requests : Forall (inWindow now) (pruned now requests).
Proof.
  rewrite pruned_filter. induction requests as [|t rest IH]; simpl; [constructor|].
  destruct (Sub now t <=? rateLimitWindow) eqn:E; [|done].
  constructor; [|done]. by apply Z.leb_le.
Qed.

Lemma pruned_length now requests :
  (length (pruned now requests) <= length requests)%nat.
Proof.
  rewrite pruned_filter. induction requests as [|t rest IH]; simpl; [lia|].
  destruct (Sub now t <=? rateLimitWindow); simpl; lia.
Qed.

Lemma entry_insert ip l store : entry ip (<[ip := l]> store) = l.
Proof. unfold entry. by rewrite lookup_insert_eq. Qed.

Lemma entry_insert_ne ip ip' l store :
  ip <> ip' -> entry ip' (<[ip := l]> store) = entry ip' store.
Proof. intros. unfold entry. by rewrite lookup_insert_ne. Qed.

(** The verdict and the entry left behind, in closed form. *)
Lemma isRateLimited_allowed now ip store :
  (length (pruned now (entry ip store)) < maxRequestsPerMinute)%nat ->
  isRateLimited now ip store
  = (false, <[ip := pruned now (entry ip store) ++ [now]]> store).
Proof.
  intros Hlt. unfold isRateLimited.
  destruct (Nat.leb_spec maxRequestsPerMinute
              (length (pruned now (entry ip store)))); [lia|].
  by rewrite entry_insert, insert_insert_eq.
Qed.

Lemma isRateLimited_denied now ip store :
  (maxRequestsPerMinute <= length (pruned now (entry ip store)))%nat ->
  isRateLimited now ip store
  = (true, <[ip := pruned now (entry ip store)]> store).
Proof.
  intros Hle. unfold isRateLimited.
  destruct (Nat.leb_spec maxRequestsPerMinute
              (length (pruned now (entry ip store)))); [done|lia].
Qed.

Lemma isRateLimited_frame now ip ip' store :
  ip <> ip' -> entry ip' (isRateLimited now ip store).2 = entry ip' store.
Proof.
  intros Hne. unfold isRateLimited.
  destruct (maxRequestsPerMinute <=? _)%nat; simpl;
    by rewrite !entry_insert_ne.
Qed.

(** While fewer than the limit are on record, every check is admitted
    and recorded, whatever the clock readings are. *)
Lemma checks_below_limit ip nows : forall store,
  Forall (fun now => Forall (inWindow now) (entry ip store)) nows ->
  Forall (fun now => Forall (inWindow now) nows) nows ->
  (length (entry ip store) + length nows <= maxRequestsPerMinute)%nat ->
  (checks ip nows store).1 = repeat false (length nows)
  /\ entry ip (checks ip nows store).2 = entry ip store ++ nows.
Proof.
  induction nows as [|now rest IH]; intros store Hold Hnew Hlen; simpl.
  - by rewrite app_nil_r.
  - inversion Hold as [|? ? Hnow Hold']; subst.
    inversion Hnew as [|? ? Hnow' Hnew']; subst.
    simpl in Hlen.
    rewrite isRateLimited_allowed
      by (rewrite pruned_all_recent by done; lia).
    rewrite pruned_all_recent by done.
    specialize (IH (<[ip := entry ip store ++ [now]]> store)).
    destruct (checks ip rest _) as [vs store2] eqn:E. simpl in *.
    rewrite entry_insert in IH.
    destruct IH as [IH1 IH2].
    + apply Forall_forall. intros t Ht. apply Forall_app. split.
      * rewrite Forall_forall in Hold'. auto.
      * constructor; [|constructor].
        rewrite Forall_forall in Hnew'. specialize (Hnew' t Ht).
        by inversion Hnew'.
    + apply Forall_forall. intros t Ht.
      rewrite Forall_forall in Hnew'. specialize (Hnew' t Ht).
      by inversion Hnew'.
    + rewrite length_app. simpl. lia.
    + split; [by f_equal|]. by rewrite IH2, <- app_assoc.
Qed.


Lemma isRateLimited_verdict now ip store :
  (isRateLimited now ip store).1
  = (maxRequestsPerMinute <=? length (pruned now (entry ip store)))%nat.
Proof. unfold isRateLimited. by destruct (_ <=? _)%nat. Qed.

Lemma entry_unseen ip (store : gmap string (list Time)) :
  store !! ip = None -> entry ip store = [].
Proof. intros H. unfold entry. by rewrite H. Qed.

Lemma denied_takes_no_slot now ip store :
  (isRateLimited now ip store).1 = true ->
  entry ip (isRateLimited now ip store).2 = pruned now (entry ip store)
  /\ (length (entry ip (isRateLimited now ip store).2)
      <= length (entry ip store))%nat.
Proof.
  rewrite isRateLimited_verdict. intros H. apply Nat.leb_le in H.
  rewrite (isRateLimited_denied _ _ _ H). simpl. rewrite entry_insert.
  split; [done|]. apply pruned_length.
Qed.

End RateLimitFacts.

Import RateLimit RateLimitFacts.

(** C1. Sliding-window admission.  For a client not yet in the table:
    its first check is admitted at any clock reading; fifty checks whose
    readings lie within one window of each other are all admitted and all
    recorded; a further check within the window of those fifty is denied
    and leaves exactly the fifty timestamps on record; a check made once
    the window has passed since every recorded timestamp is admitted
    again.  In any state, a denied check leaves only timestamps that were
    on record before, so it takes no slot. *)
Theorem C1_sliding_window (ip : string) (store : gmap string (list Time))
    (nows : list Time) (next later : Time) :
  store !! ip = None ->
  length nows = maxRequestsPerMinute ->
  Forall (fun now => Forall (inWindow now) nows) nows ->
  Forall (inWindow next) nows ->
  Forall (fun t => ~ inWindow later t) nows ->
  let '(verdicts, store50) := checks ip nows store in
  let '(denied, store51) := isRateLimited next ip store50 in
  let '(again, store52) := isRateLimited later ip store51 in
  (forall now, (isRateLimited now ip store).1 = false)
  /\ verdicts = repeat false maxRequestsPerMinute
  /\ entry ip store50 = nows
  /\ denied = true
  /\ entry ip store51 = nows
  /\ again = false
  /\ entry ip store52 = [later]
  /\ (forall now ip' store',
        (isRateLimited now ip' store').1 = true ->
        entry ip' (isRateLimited now ip' store').2
        = pruned now (entry ip' store')
        /\ length (entry ip' (isRateLimited now ip' store').2)
           <= length (entry ip' store'))%nat.
Proof.
  intros Hnew Hlen Hpair Hnext Hlater.
  pose proof (entry_unseen _ _ Hnew) as He.
  destruct (checks_below_limit ip nows store) as [Hv Hs].
  { rewrite He. apply Forall_forall. intros; constructor. }
  { done. }
  { rewrite He. simpl. lia. }
  destruct (checks ip nows store) as [verdicts store50]. simpl in Hv, Hs.
  rewrite He in Hs. simpl in Hs.
  rewrite (isRateLimited_denied next ip store50)
    by (rewrite Hs, pruned_all_recent by done; lia).
  rewrite Hs, (pruned_all_recent next nows) by done.
  rewrite (isRateLimited_allowed later ip (<[ip:=nows]> store50))
    by (rewrite entry_insert, pruned_all_stale by done;
        unfold maxRequestsPerMinute; simpl; lia).
  rewrite !entry_insert, pruned_all_stale by done.
  split; [intros now; rewrite isRateLimited_verdict, He; reflexivity|].
  split; [by rewrite Hv, Hlen|].
  repeat (split; [done|]).
  intros now ip' store'. apply denied_takes_no_slot.
Qed.

Definition fiftyReadings : list Time := map Z.of_nat (seq 1 50).

Lemma C1_sliding_window_witness :
  let '(verdicts, store50) := checks "10.0.0.7" fiftyReadings ∅ in
  let '(denied, store51) := isRateLimited 51 "10.0.0.7" store50 in
  let '(again, store52) := isRateLimited (Minute + 51) "10.0.0.7" store51 in
  (forall now, (isRateLimited now "10.0.0.7" ∅).1 = false)
  /\ verdicts = repeat false maxRequestsPerMinute
  /\ entry "10.0.0.7" store50 = fiftyReadings
  /\ denied = true
  /\ entry "10.0.0.7" store51 = fiftyReadings
  /\ again = false
  /\ entry "10.0.0.7" store52 = [Minute + 51]
  /\ (forall now ip' store',
        (isRateLimited now ip' store').1 = true ->
        entry ip' (isRateLimited now ip' store').2
        = pruned now (entry ip' store')
        /\ length (entry ip' (isRateLimited now ip' store').2)
           <= length (entry ip' store'))%nat.
Proof.
  apply (C1_sliding_window "10.0.0.7" ∅ fiftyReadings 51 (Minute + 51)).
  - reflexivity.
  - reflexivity.
  - refine (bool_decide_unpack _ _). vm_compute. exact I.
  - refine (bool_decide_unpack _ _). vm_compute. exact I.
  - refine (bool_decide_unpack _ _). vm_compute. exact I.
Defined.

(** C9. The table invariant.  After an admission check, allowed or
    denied, every timestamp the client's entry retains is within the
    window of the clock reading of that check (and not after it, when the
    entry held no later reading before).  When every recorded timestamp
    is stale the pruning at line 81 leaves the entry empty, and the check
    then gives the verdict and the table it gives for the same table
    without the client. *)
Theorem C9_table_invariant (now : Time) (ip : string)
    (store : gmap string (list Time)) :
  Forall (inWindow now) (entry ip (isRateLimited now ip store).2)
  /\ (Forall (fun t => t <= now) (entry ip store) ->
      Forall (fun t => 0 <= Sub now t <= rateLimitWindow)
        (entry ip (isRateLimited now ip store).2))
  /\ (Forall (fun t => ~ inWindow now t) (entry ip store) ->
      entry ip (pruneStore now ip store) = []
      /\ isRateLimited now ip store = isRateLimited now ip (delete ip store)).
Proof.
  assert (Hin : Forall (inWindow now) (entry ip (isRateLimited now ip store).2)).
  { unfold isRateLimited.
    destruct (maxRequestsPerMinute <=? _)%nat; simpl; rewrite !entry_insert.
    - apply pruned_inWindow.
    - apply Forall_app. split; [apply pruned_inWindow|].
      constructor; [|constructor]. unfold inWindow.
      rewrite GoTimeFacts.Sub_refl. unfold rateLimitWindow, Minute, Second, Nanosecond. lia. }
  split; [exact Hin|]. split.
  - intros Hmono.
    assert (Hle : Forall (fun t => t <= now) (entry ip (isRateLimited now ip store).2)).
    { unfold isRateLimited.
      destruct (maxRequestsPerMinute <=? _)%nat; simpl; rewrite !entry_insert.
      - rewrite pruned_filter. apply Forall_forall. intros t Ht.
        apply list_elem_of_In, filter_In in Ht. destruct Ht as [Ht _].
        rewrite Forall_forall in Hmono. apply Hmono. by apply list_elem_of_In.
      - apply Forall_app. split.
        + rewrite pruned_filter. apply Forall_forall. intros t Ht.
          apply list_elem_of_In, filter_In in Ht. destruct Ht as [Ht _].
          rewrite Forall_forall in Hmono. apply Hmono. by apply list_elem_of_In.
        + constructor; [lia|constructor]. }
    rewrite Forall_forall in Hin, Hle. apply Forall_forall. intros t Ht.
    split; [apply GoTimeFacts.Sub_nonneg; auto|apply Hin; auto].
  - intros Hstale. split.
    + unfold pruneStore. by rewrite entry_insert, pruned_all_stale.
    + rewrite (isRateLimited_allowed now ip store)
        by (rewrite pruned_all_stale by done; unfold maxRequestsPerMinute; simpl; lia).
      rewrite (isRateLimited_allowed now ip (delete ip store)).
      * unfold entry at 2. rewrite lookup_delete_eq. simpl.
        rewrite pruned_all_stale by done.
        by rewrite insert_delete_eq.
      * unfold entry. rewrite lookup_delete_eq. simpl.
        unfold maxRequestsPerMinute. lia.
Qed.

(** ** Byte strings *)

Module BytesFacts.

Lemma str_bytes s : str (bytes s) = s.
Proof. apply string_of_list_ascii_of_string. Qed.

Lemma bytes_str l : bytes (str l) = l.
Proof. apply list_ascii_of_string_of_list_ascii. Qed.

Lemma bytes_app s t : bytes (s +:+ t) = bytes s ++ bytes t.
Proof. induction s as [|c s IH]; simpl; [done|]. unfold bytes in *. simpl. by f_equal. Qed.

Lemma bytes_inj s t : bytes s = bytes t -> s = t.
Proof. intros H. by rewrite <- (str_bytes s), <- (str_bytes t), H. Qed.

Lemma occurs_true c l : occurs c l = true <-> In c l.
Proof.
  unfold occurs. rewrite existsb_exists. split.
  - intros (x & Hx & E). apply Ascii.eqb_eq in E. by subst.
  - intros H. exists c. split; [done|]. apply Ascii.eqb_refl.
Qed.

Lemma occurs_false c l : occurs c l = false <-> ~ In c l.
Proof.
  rewrite <- occurs_true. destruct (occurs c l); split; intros H; done.
Qed.

End BytesFacts.

(** ** The sanitizer *)

Module SanitizerFacts.

Import Regexp Sanitizer BytesFacts.

(** With the empty replacement, [ReplaceAllString] keeps the bytes the
    class does not match, in their order. *)
Lemma replaceAll_nil re src :
  replaceAll re src [] = List.filter (fun c => negb (MatchByte re c)) src.
Proof.
  induction src as [|c rest IH]; simpl; [done|].
  destruct (MatchByte re c); simpl; by rewrite IH.
Qed.

(** The two patterns compile, to the classes of the two denylists. *)
Lemma dangerousChars_compiles : is_Some (Compile "[;&*+#=<>-]").
Proof. vm_compute. eauto. Qed.

Lemma dangerousCharsBasic_compiles : is_Some (Compile "[;]").
Proof. vm_compute. eauto. Qed.

Lemma dangerousChars_denylist c :
  MatchByte dangerousChars c = occurs c denylist.
Proof.
  destruct c as [b0 b1 b2 b3 b4 b5 b6 b7].
  destruct b0, b1, b2, b3, b4, b5, b6, b7; reflexivity.
Qed.

Lemma dangerousCharsBasic_denylist c :
  MatchByte dangerousCharsBasic c = occurs c denylistBasic.
Proof.
  destruct c as [b0 b1 b2 b3 b4 b5 b6 b7].
  destruct b0, b1, b2, b3, b4, b5, b6, b7; reflexivity.
Qed.

Lemma filter_sublist {A} (f : A -> bool) (l : list A) :
  sublist (List.filter f l) l.
Proof.
  induction l as [|x l IH]; simpl; [constructor|].
  destruct (f x); by constructor.
Qed.

(** What it means for [sanitize] to remove the characters of [deny]:
    the output is the input without them, nothing else lost or moved. *)
Definition removes (deny : list ascii) (sanitize : string -> string) : Prop :=
  forall query : string,
    bytes (sanitize query)
    = List.filter (fun c => negb (occurs c deny)) (bytes query)
    /\ Forall (fun c => ~ In c deny) (bytes (sanitize query))
    /\ sublist (bytes (sanitize query)) (bytes query).

Lemma sanitizeWith_removes re deny :
  (forall c, MatchByte re c = occurs c deny) ->
  removes deny (sanitizeWith re).
Proof.
  intros Hre query.
  assert (E : bytes (sanitizeWith re query)
              = List.filter (fun c => negb (occurs c deny)) (bytes query)).
  { unfold sanitizeWith, ReplaceAllString. rewrite bytes_str.
    change (bytes "") with (@nil ascii). rewrite replaceAll_nil.
    apply filter_ext. intros c. by rewrite Hre. }
  split; [exact E|]. rewrite E. split.
  - apply Forall_forall. intros c Hc.
    apply list_elem_of_In, filter_In in Hc. destruct Hc as [_ Hc].
    apply negb_true_iff in Hc. by apply occurs_false.
  - apply filter_sublist.
Qed.

End SanitizerFacts.

Import SanitizerFacts.

(** C2. The sanitizer, in both configurations ([;&*+#=<>-] in [part_000],
    [;] in [main.go]): for every input the output is the input with every
    occurrence of every denylist character removed; it holds no denylist
    character; the other characters are all kept, in their order (the
    output is the input filtered, a subsequence of it).  The function is a
    total pure function of its argument, its pattern compiles, and the
    empty string is mapped to the empty string. *)
Theorem C2_sanitizer :
  removes Sanitizer.denylist Limited.sanitizeGraphQLQuery
  /\ removes Sanitizer.denylistBasic Basic.sanitizeGraphQLQuery
  /\ is_Some (Regexp.Compile "[;&*+#=<>-]")
  /\ is_Some (Regexp.Compile "[;]")
  /\ Limited.sanitizeGraphQLQuery "" = ""
  /\ Basic.sanitizeGraphQLQuery "" = "".
Proof.
  split; [apply sanitizeWith_removes, dangerousChars_denylist|].
  split; [apply sanitizeWith_removes, dangerousCharsBasic_denylist|].
  split; [apply dangerousChars_compiles|].
  split; [apply dangerousCharsBasic_compiles|].
  split; reflexivity.
Qed.

(** ** Host and port *)

Module NetFacts.

Import Net Identity BytesFacts.

Lemma str_app a b : str (a ++ b) = str a +:+ str b.
Proof. unfold str. induction a as [|c a IH]; simpl; [done|]. by rewrite IH. Qed.

Lemma eqb_false_ne (x c : ascii) : Ascii.eqb x c = false <-> x <> c.
Proof. apply Ascii.eqb_neq. Qed.

Lemma occurs_cons c x l : occurs c (x :: l) = Ascii.eqb c x || occurs c l.
Proof. reflexivity. Qed.

Lemma occurs_app c l1 l2 : occurs c (l1 ++ l2) = occurs c l1 || occurs c l2.
Proof. unfold occurs. apply existsb_app. Qed.

Lemma IndexByte_None l c : occurs c l = false -> IndexByte l c = None.
Proof.
  induction l as [|x l IH]; [done|].
  rewrite occurs_cons. intros H. apply orb_false_iff in H. destruct H as [H1 H2].
  simpl. rewrite Ascii.eqb_sym, H1. by rewrite IH.
Qed.

Lemma IndexByte_app l1 l2 c :
  occurs c l1 = false -> IndexByte (l1 ++ c :: l2) c = Some (length l1).
Proof.
  induction l1 as [|x l1 IH].
  - intros _. simpl. by rewrite Ascii.eqb_refl.
  - rewrite occurs_cons. intros H. apply orb_false_iff in H. destruct H as [H1 H2].
    simpl. rewrite Ascii.eqb_sym, H1. by rewrite IH.
Qed.

Lemma LastIndexByte_None l c : occurs c l = false -> LastIndexByte l c = None.
Proof.
  induction l as [|x l IH]; [done|].
  rewrite occurs_cons. intros H. apply orb_false_iff in H. destruct H as [H1 H2].
  simpl. rewrite IH by done. by rewrite Ascii.eqb_sym, H1.
Qed.

Lemma LastIndexByte_app l1 l2 c :
  occurs c l2 = false -> LastIndexByte (l1 ++ c :: l2) c = Some (length l1).
Proof.
  intros H. induction l1 as [|x l1 IH]; simpl.
  - rewrite LastIndexByte_None by done. by rewrite Ascii.eqb_refl.
  - by rewrite IH.
Qed.

Lemma IndexByte_lookup l c i : IndexByte l c = Some i -> l !! i = Some c.
Proof.
  revert i. induction l as [|x l IH]; intros i; simpl; [done|].
  destruct (Ascii.eqb x c) eqn:E.
  - intros [= <-]. apply Ascii.eqb_eq in E. by subst.
  - destruct (IndexByte l c) as [j|]; [|done]. intros [= <-]. simpl. auto.
Qed.

Lemma LastIndexByte_lookup l c i : LastIndexByte l c = Some i -> l !! i = Some c.
Proof.
  revert i. induction l as [|x l IH]; intros i; simpl; [done|].
  destruct (LastIndexByte l c) as [j|].
  - intros [= <-]. simpl. auto.
  - destruct (Ascii.eqb x c) eqn:E; [|done].
    intros [= <-]. apply Ascii.eqb_eq in E. by subst.
Qed.

Lemma drop_lookup (l : list ascii) i c :
  l !! i = Some c -> drop i l = c :: drop (S i) l.
Proof.
  intros H. rewrite <- (take_drop_middle l i c H) at 1.
  rewrite drop_app_length'; [done|].
  rewrite length_take. apply lookup_lt_Some in H. lia.
Qed.

Definition plain (l : list ascii) : Prop :=
  occurs ":" l = false /\ occurs "[" l = false /\ occurs "]" l = false.

Definition unbracketed (l : list ascii) : Prop :=
  occurs "[" l = false /\ occurs "]" l = false.

(** The two address forms [SplitHostPort] accepts. *)
Lemma SplitHostPort_plain host port :
  plain (bytes host) -> plain (bytes port) ->
  SplitHostPort (host +:+ ":" +:+ port) = inl (host, port).
Proof.
  intros (Hh1 & Hh2 & Hh3) (Hp1 & Hp2 & Hp3).
  unfold SplitHostPort. rewrite !bytes_app. change (bytes ":") with [":"%char].
  simpl app at 1. rewrite LastIndexByte_app by done.
  assert (Hhead : (if (bytes host ++ ":"%char :: bytes port) !! O is Some c
                   then Ascii.eqb c "[" else false) = false).
  { destruct (bytes host) as [|x hl]; simpl; [done|].
    rewrite occurs_cons in Hh2. apply orb_false_iff in Hh2.
    destruct Hh2 as [H _]. apply Ascii.eqb_neq in H. apply Ascii.eqb_neq. congruence. }
  simpl app. rewrite Hhead.
  rewrite take_app_length. rewrite IndexByte_None by done.
  unfold splitTail. rewrite !bytes_app. change (bytes ":") with [":"%char].
  simpl app. rewrite !drop_0.
  rewrite (IndexByte_None _ "[")
    by (rewrite occurs_app, occurs_cons, Hh2, Hp2; reflexivity).
  rewrite (IndexByte_None _ "]")
    by (rewrite occurs_app, occurs_cons, Hh3, Hp3; reflexivity).
  replace (drop (S (length (bytes host))) (bytes host ++ ":"%char :: bytes port))
    with (bytes port).
  - by rewrite !str_bytes.
  - rewrite (cons_middle ":"%char), app_assoc.
    rewrite drop_app_length'; [done|]. rewrite length_app. simpl. lia.
Qed.

Lemma SplitHostPort_bracketed host port :
  unbracketed (bytes host) -> plain (bytes port) ->
  SplitHostPort ("[" +:+ host +:+ "]:" +:+ port) = inl (host, port).
Proof.
  intros (Hh2 & Hh3) (Hp1 & Hp2 & Hp3).
  unfold SplitHostPort. rewrite !bytes_app.
  change (bytes "[") with ["["%char]. change (bytes "]:") with ["]"%char; ":"%char].
  set (h := bytes host) in *. set (p := bytes port) in *.
  replace (["["%char] ++ h ++ ["]"%char; ":"%char] ++ p)
    with (("["%char :: h ++ ["]"%char]) ++ ":"%char :: p)
    by (simpl; rewrite <- app_assoc; reflexivity).
  rewrite LastIndexByte_app by done.
  change ((("["%char :: h ++ ["]"%char]) ++ ":"%char :: p) !! O) with (Some "["%char).
  cbv iota beta. rewrite Ascii.eqb_refl.
  replace (("["%char :: h ++ ["]"%char]) ++ ":"%char :: p)
    with (("["%char :: h) ++ "]"%char :: ":"%char :: p)
    by (simpl; rewrite <- app_assoc; reflexivity).
  rewrite IndexByte_app by (rewrite occurs_cons, Hh3; reflexivity).
  destruct (Nat.eqb_spec (S (length ("["%char :: h)))
              (length (("["%char :: h) ++ "]"%char :: ":"%char :: p))) as [E|_].
  { rewrite length_app in E. simpl in E. lia. }
  destruct (Nat.eqb_spec (S (length ("["%char :: h)))
              (length ("["%char :: h ++ ["]"%char]))) as [_|E].
  2:{ destruct E. simpl. rewrite length_app. simpl. lia. }
  unfold splitTail, slice. rewrite !bytes_app.
  change (bytes "[") with ["["%char]. change (bytes "]:") with ["]"%char; ":"%char].
  fold h p. simpl app.
  assert (E1 : drop (S (length ("["%char :: h)))
                 ("["%char :: h ++ "]"%char :: ":"%char :: p) = ":"%char :: p).
  { simpl. rewrite (cons_middle "]"%char), app_assoc.
    rewrite drop_app_length'; [done|]. rewrite length_app. simpl. lia. }
  assert (E2 : take (length ("["%char :: h) - 1)
                 (drop 1 ("["%char :: h ++ "]"%char :: ":"%char :: p)) = h).
  { simpl. rewrite drop_0, Nat.sub_0_r. apply take_app_length. }
  assert (E3 : drop (S (length ("["%char :: h ++ ["]"%char])))
                 ("["%char :: h ++ "]"%char :: ":"%char :: p) = p).
  { change ("["%char :: h ++ "]"%char :: ":"%char :: p)
      with (("["%char :: h) ++ "]"%char :: ":"%char :: p).
    rewrite drop_app_ge by (simpl; rewrite length_app; simpl; lia).
    replace (S (length ("["%char :: h ++ ["]"%char])) - length ("["%char :: h))%nat
      with 2%nat by (simpl; rewrite length_app; simpl; lia).
    reflexivity. }
  rewrite E1, E2, E3.
  change (drop 1 ("["%char :: h ++ "]"%char :: ":"%char :: p))
    with (drop 0 (h ++ "]"%char :: ":"%char :: p)).
  rewrite drop_0.
  rewrite (IndexByte_None _ "[")
    by (rewrite occurs_app, !occurs_cons, Hh2, Hp2; reflexivity).
  rewrite (IndexByte_None _ "]") by (rewrite occurs_cons, Hp3; reflexivity).
  unfold h, p. by rewrite !str_bytes.
Qed.

Lemma SplitHostPort_inl remoteAddr host port :
  SplitHostPort remoteAddr = inl (host, port) ->
  remoteAddr = host +:+ ":" +:+ port
  \/ remoteAddr = "[" +:+ host +:+ "]:" +:+ port.
Proof.
  unfold SplitHostPort. set (l := bytes remoteAddr).
  destruct (LastIndexByte l ":") as [i|] eqn:Hi; [|done].
  apply LastIndexByte_lookup in Hi.
  assert (Hl : remoteAddr = str l) by (unfold l; by rewrite str_bytes).
  destruct (l !! O) as [c0|] eqn:H0; cycle 1.
  { destruct (IndexByte (take i l) ":"); [done|].
    unfold splitTail. fold l.
    destruct (IndexByte (drop 0 l) "["); [done|].
    destruct (IndexByte (drop 0 l) "]"); [done|].
    intros [= <- <-]. left.
    rewrite Hl at 1. rewrite <- (take_drop_middle l i _ Hi) at 1.
    by rewrite str_app. }
  destruct (Ascii.eqb c0 "[") eqn:Hc0.
  - apply Ascii.eqb_eq in Hc0. subst c0.
    destruct (IndexByte l "]") as [e|] eqn:He; [|done].
    apply IndexByte_lookup in He.
    destruct (S e =? length l)%nat; [done|].
    destruct (Nat.eqb_spec (S e) i) as [<-|_]; cycle 1.
    { by destruct (if l !! S e is Some c then Ascii.eqb c ":" else false). }
    unfold splitTail, slice. fold l.
    destruct (IndexByte (drop 1 l) "["); [done|].
    destruct (IndexByte (drop (S e) l) "]"); [done|].
    intros [= <- <-]. right.
    destruct e as [|e']; [congruence|].
    rewrite Hl at 1.
    rewrite <- (take_drop_middle l (S e') _ He) at 1.
    rewrite (drop_lookup l (S (S e')) _ Hi).
    destruct l as [|x tl]; [done|]. simpl in H0. injection H0 as ->.
    simpl. rewrite drop_0, Nat.sub_0_r.
    rewrite str_app. reflexivity.
  - destruct (IndexByte (take i l) ":"); [done|].
    unfold splitTail. fold l.
    destruct (IndexByte (drop 0 l) "["); [done|].
    destruct (IndexByte (drop 0 l) "]"); [done|].
    intros [= <- <-]. left.
    rewrite Hl at 1. rewrite <- (take_drop_middle l i _ Hi) at 1.
    by rewrite str_app.
Qed.

Lemma SplitHostPort_inr remoteAddr e :
  SplitHostPort remoteAddr = inr e -> extractClientIP remoteAddr = remoteAddr.
Proof. intros H. unfold extractClientIP. by rewrite H. Qed.

End NetFacts.

Import NetFacts.

(** C8. Client identity.  For every remote address: when
    [net.SplitHostPort] accepts it, the address is [host:port] or
    [[host]:port] for the host and port returned, and the identity is that
    host, with [::1] replaced by [127.0.0.1]; when it is rejected as
    malformed, the identity is the address itself.  Both accepted forms
    are split as written, so [[::1]:p] and [127.0.0.1:q] give the one
    identity [127.0.0.1] and are counted in the same entry of the table.
    [extractClientIP] is total: no address fails the request. *)
Theorem C8_client_identity :
  (forall remoteAddr,
     match Net.SplitHostPort remoteAddr with
     | inl (host, port) =>
         (remoteAddr = host +:+ ":" +:+ port
          \/ remoteAddr = "[" +:+ host +:+ "]:" +:+ port)
         /\ Identity.extractClientIP remoteAddr
            = (if String.eqb host "::1" then "127.0.0.1" else host)
     | inr _ => Identity.extractClientIP remoteAddr = remoteAddr
     end)
  /\ (forall host port, plain (bytes host) -> plain (bytes port) ->
      Identity.extractClientIP (host +:+ ":" +:+ port) = host)
  /\ (forall host port, unbracketed (bytes host) -> plain (bytes port) ->
      Identity.extractClientIP ("[" +:+ host +:+ "]:" +:+ port)
      = (if String.eqb host "::1" then "127.0.0.1" else host))
  /\ (forall p q now store, plain (bytes p) -> plain (bytes q) ->
      Identity.extractClientIP ("[::1]:" +:+ p) = "127.0.0.1"
      /\ Identity.extractClientIP ("127.0.0.1:" +:+ q) = "127.0.0.1"
      /\ RateLimit.isRateLimited now
           (Identity.extractClientIP ("[::1]:" +:+ p)) store
         = RateLimit.isRateLimited now
             (Identity.extractClientIP ("127.0.0.1:" +:+ q)) store).
Proof.
  assert (Hplain : forall host port, plain (bytes host) -> plain (bytes port) ->
            Identity.extractClientIP (host +:+ ":" +:+ port) = host).
  { intros host port Hh Hp. unfold Identity.extractClientIP.
    rewrite SplitHostPort_plain by done.
    destruct (String.eqb_spec host "::1") as [->|]; [|done].
    by destruct Hh as [Hh _]. }
  assert (Hbr : forall host port, unbracketed (bytes host) -> plain (bytes port) ->
            Identity.extractClientIP ("[" +:+ host +:+ "]:" +:+ port)
            = (if String.eqb host "::1" then "127.0.0.1" else host)).
  { intros host port Hh Hp. unfold Identity.extractClientIP.
    by rewrite SplitHostPort_bracketed. }
  split; [|split; [exact Hplain|split; [exact Hbr|]]].
  - intros remoteAddr.
    destruct (Net.SplitHostPort remoteAddr) as [[host port]|e] eqn:E.
    + split; [by apply SplitHostPort_inl|].
      unfold Identity.extractClientIP. by rewrite E.
    + by apply (SplitHostPort_inr _ e).
  - intros p q now store Hp Hq.
    assert (E1 : Identity.extractClientIP ("[::1]:" +:+ p) = "127.0.0.1").
    { apply (Hbr "::1" p); [by vm_compute|done]. }
    assert (E2 : Identity.extractClientIP ("127.0.0.1:" +:+ q) = "127.0.0.1").
    { apply (Hplain "127.0.0.1" q); [by vm_compute|done]. }
    by rewrite E1, E2.
Qed.

(** ** The handlers *)

Module PipelineFacts.

Import JSON HTTP Pipeline.

(** The request a handler hands to the proxy. *)
Definition outbound (sanitize : string -> string) (r : Request) : Request :=
  withBody r (newBody (rewrite sanitize (readBody r)).2).

Definition auditOf (sanitize : string -> string) (ip : string) (r : Request)
  : AuditCall :=
  {| auditIP := ip;
     auditRaw := (rewrite sanitize (readBody r)).1.1;
     auditSanitized := (rewrite sanitize (readBody r)).1.2 |}.

Lemma routed_post r : routed r = true -> Method r = "POST" /\ Path r = "/public".
Proof.
  unfold routed. intros H. apply andb_true_iff in H. destruct H as [H1 H2].
  by apply String.eqb_eq in H1, H2.
Qed.

Lemma routed_not_options r :
  routed r = true -> String.eqb (Method r) MethodOptions = false.
Proof. intros H. apply routed_post in H. destruct H as [-> _]. reflexivity. Qed.

(** The three outcomes of the handler of [part_000] behind the preflight
    check. *)
Lemma Limited_not_found upstream now r world :
  String.eqb (Method r) MethodOptions = false -> routed r = false ->
  Limited.graphqlMiddleware upstream now r world
  = (Error "Not Found" StatusNotFound (Limited.setOriginPolicy newResponseWriter),
     world).
Proof. intros H1 H2. unfold Limited.graphqlMiddleware. by rewrite H1, H2. Qed.

Lemma Limited_limited upstream now r world :
  routed r = true ->
  (RateLimit.isRateLimited now (Identity.extractClientIP (RemoteAddr r))
     (rateLimitStore world)).1 = true ->
  Limited.graphqlMiddleware upstream now r world
  = (Error "Rate limit exceeded" StatusTooManyRequests
       (Limited.setOriginPolicy newResponseWriter),
     {| rateLimitStore :=
          (RateLimit.isRateLimited now (Identity.extractClientIP (RemoteAddr r))
             (rateLimitStore world)).2;
        audits := audits world;
        forwarded := forwarded world |}).
Proof.
  intros H1 H2. unfold Limited.graphqlMiddleware.
  rewrite (routed_not_options _ H1), H1. simpl negb. cbv iota.
  destruct (rewrite _ _) as [[o c] p]. simpl RemoteAddr.
  destruct (RateLimit.isRateLimited _ _ _) as [v s]. simpl in H2. by subst v.
Qed.

Lemma Limited_forwarded upstream now r world :
  routed r = true ->
  (RateLimit.isRateLimited now (Identity.extractClientIP (RemoteAddr r))
     (rateLimitStore world)).1 = false ->
  Limited.graphqlMiddleware upstream now r world
  = (ServeHTTP upstream Limited.ModifyResponse
       (Limited.setOriginPolicy newResponseWriter)
       (outbound Limited.sanitizeGraphQLQuery r),
     {| rateLimitStore :=
          (RateLimit.isRateLimited now (Identity.extractClientIP (RemoteAddr r))
             (rateLimitStore world)).2;
        audits := audits world
                  ++ [auditOf Limited.sanitizeGraphQLQuery
                        (Identity.extractClientIP (RemoteAddr r)) r];
        forwarded := forwarded world ++ [outbound Limited.sanitizeGraphQLQuery r] |}).
Proof.
  intros H1 H2. unfold Limited.graphqlMiddleware, outbound, auditOf.
  rewrite (routed_not_options _ H1), H1. simpl negb. cbv iota.
  destruct (rewrite _ _) as [[o c] p]. simpl RemoteAddr.
  destruct (RateLimit.isRateLimited _ _ _) as [v s]. simpl in H2. by subst v.
Qed.

Lemma Basic_forwarded upstream r world :
  routed r = true ->
  Basic.graphqlMiddleware upstream r world
  = (ServeHTTP upstream id newResponseWriter
       (outbound Basic.sanitizeGraphQLQuery r),
     {| rateLimitStore := rateLimitStore world;
        audits := audits world
                  ++ [auditOf Basic.sanitizeGraphQLQuery (RemoteAddr r) r];
        forwarded := forwarded world ++ [outbound Basic.sanitizeGraphQLQuery r] |}).
Proof.
  intros H1. unfold Basic.graphqlMiddleware, outbound, auditOf.
  rewrite H1. simpl negb. cbv iota.
  by destruct (rewrite _ _) as [[o c] p].
Qed.

Lemma Limited_preflight upstream now r world :
  Method r = MethodOptions ->
  Limited.graphqlMiddleware upstream now r world
  = (WriteHeader StatusOK (Limited.setOriginPolicy newResponseWriter), world).
Proof. intros Hm. unfold Limited.graphqlMiddleware. by rewrite Hm. Qed.

(** The origin policy's headers. *)
Lemma policy_headers :
  wHeader (Limited.setOriginPolicy newResponseWriter)
  = {[ "Access-Control-Allow-Origin" := ["http://localhost:3000"];
       "Access-Control-Allow-Methods" := ["POST, OPTIONS"];
       "Access-Control-Allow-Headers" := ["Content-Type, Authorization"] ]}.
Proof.
  apply map_eq. intros k. unfold Limited.setOriginPolicy, withHeader, Set_. simpl.
  change (CanonicalMIMEHeaderKey "Access-Control-Allow-Origin")
    with "Access-Control-Allow-Origin".
  change (CanonicalMIMEHeaderKey "Access-Control-Allow-Methods")
    with "Access-Control-Allow-Methods".
  change (CanonicalMIMEHeaderKey "Access-Control-Allow-Headers")
    with "Access-Control-Allow-Headers".
  rewrite !lookup_insert, lookup_singleton, lookup_empty.
  repeat case_decide; subst; try done.
Qed.

End PipelineFacts.

Import HTTP Pipeline PipelineFacts Samples.

(** C4. Preflight.  A request whose method is [OPTIONS], on any path, is
    answered with the three configured headers and no other, status 200
    and an empty body.  The shared state is left as it was: the rate-limit
    table is not touched, no audit call is dispatched and nothing is
    handed to the proxy; the answer does not depend on the upstream or on
    the clock, and it is not the route gate's 404. *)
Theorem C4_preflight (upstream : Request -> RoundTrip) (now : Time)
    (r : Request) (world : World) :
  Method r = MethodOptions ->
  let '(w, world') := Limited.graphqlMiddleware upstream now r world in
  wHeader w !! "Access-Control-Allow-Origin" = Some ["http://localhost:3000"]
  /\ wHeader w !! "Access-Control-Allow-Methods" = Some ["POST, OPTIONS"]
  /\ wHeader w !! "Access-Control-Allow-Headers"
     = Some ["Content-Type, Authorization"]
  /\ size (wHeader w) = 3%nat
  /\ wStatus w = Some StatusOK
  /\ wStatus w <> Some StatusNotFound
  /\ wBody w = ""
  /\ world' = world
  /\ (forall upstream' now',
        Limited.graphqlMiddleware upstream' now' r world = (w, world)).
Proof.
  intros Hm. rewrite (Limited_preflight _ _ _ _ Hm).
  unfold WriteHeader. cbn [wHeader wStatus wBody]. rewrite policy_headers.
  repeat split; try done.
  intros upstream' now'. rewrite (Limited_preflight _ _ _ _ Hm).
  unfold WriteHeader. cbn [wHeader wStatus wBody]. by rewrite policy_headers.
Qed.

Definition preflight : Request :=
  {| Method := "OPTIONS"; Path := "/anywhere"; Header := ∅; Body := None;
     ContentLength := 0; RemoteAddr := "203.0.113.9:40000" |}.

Lemma C4_preflight_witness :
  let '(w, world') := Limited.graphqlMiddleware echo 0 preflight fresh in
  wHeader w !! "Access-Control-Allow-Origin" = Some ["http://localhost:3000"]
  /\ wHeader w !! "Access-Control-Allow-Methods" = Some ["POST, OPTIONS"]
  /\ wHeader w !! "Access-Control-Allow-Headers"
     = Some ["Content-Type, Authorization"]
  /\ size (wHeader w) = 3%nat
  /\ wStatus w = Some StatusOK
  /\ wStatus w <> Some StatusNotFound
  /\ wBody w = ""
  /\ world' = fresh
  /\ (forall upstream' now',
        Limited.graphqlMiddleware upstream' now' preflight fresh = (w, fresh)).
Proof. apply (C4_preflight echo 0 preflight fresh). reflexivity. Defined.

(** ** Relaying the upstream response *)

Module CorsFacts.

Import HTTP Pipeline PipelineFacts.

(** The headers the hook deletes. *)
Definition stripped : list string :=
  ["Access-Control-Allow-Origin"; "Access-Control-Allow-Methods";
   "Access-Control-Allow-Headers"; "Access-Control-Allow-Credentials"].

(** The response headers of the CORS protocol (Fetch standard, section
    3.2.3). *)
Definition corsResponseHeaders : list string :=
  stripped ++ ["Access-Control-Expose-Headers"; "Access-Control-Max-Age"].

Lemma ModifyResponse_header resp k :
  RespHeader (Limited.ModifyResponse resp) !! k
  = if bool_decide (k ∈ stripped) then None else RespHeader resp !! k.
Proof.
  unfold Limited.ModifyResponse, Del. cbn [RespHeader].
  change (CanonicalMIMEHeaderKey "Access-Control-Allow-Origin")
    with "Access-Control-Allow-Origin".
  change (CanonicalMIMEHeaderKey "Access-Control-Allow-Methods")
    with "Access-Control-Allow-Methods".
  change (CanonicalMIMEHeaderKey "Access-Control-Allow-Headers")
    with "Access-Control-Allow-Headers".
  change (CanonicalMIMEHeaderKey "Access-Control-Allow-Credentials")
    with "Access-Control-Allow-Credentials".
  rewrite !lookup_delete. unfold stripped.
  case_bool_decide as Hk.
  - repeat case_decide; try done. exfalso.
    repeat (apply elem_of_cons in Hk; destruct Hk as [Hk|Hk]; [congruence|]).
    by apply elem_of_nil in Hk.
  - repeat case_decide; try done; subst; destruct Hk; set_solver.
Qed.

Lemma copyHeader_lookup dst src k :
  copyHeader dst src !! k
  = union_with (fun d s => Some (d ++ s)) (dst !! k) (src !! k).
Proof. unfold copyHeader. apply lookup_union_with. Qed.

(** The header map is never short of what is added to nothing. *)
Lemma copyHeader_nothing src : copyHeader ∅ src = src.
Proof.
  apply map_eq. intros k. rewrite copyHeader_lookup, lookup_empty.
  by destruct (src !! k).
Qed.

(** The interim responses the caller is sent when the map holds [h] at
    the first: the first goes out with [h] under its own header, the
    later ones with their own header only. *)
Definition sentInterim (h : gmap string (list string)) (i : Interim) : Interim :=
  {| InterimCode := InterimCode i;
     InterimHeader :=
       delete "Content-Length"
         (delete "Transfer-Encoding" (copyHeader h (InterimHeader i))) |}.

Definition sentInterims (h : gmap string (list string)) (l : list Interim)
  : list Interim :=
  match l with
  | [] => []
  | i :: rest => sentInterim h i :: map (sentInterim ∅) rest
  end.

(** The header map behind the interim responses: as it was when there
    were none, and empty otherwise. *)
Definition leftBy (l : list Interim) (h : gmap string (list string))
  : gmap string (list string) :=
  match l with
  | [] => h
  | _ :: _ => ∅
  end.

Lemma got1xx_cleared l : forall w,
  wStatus w = None -> wHeader w = ∅ ->
  fold_left got1xxResponse l w
  = {| wHeader := ∅; wInterim := wInterim w ++ map (sentInterim ∅) l;
       wStatus := None; wBody := wBody w |}.
Proof.
  induction l as [|i rest IH]; intros w Hs Hh; cbn [fold_left map].
  - rewrite app_nil_r. destruct w; cbn in *; by subst.
  - rewrite IH.
    + unfold got1xxResponse, WriteHeader1xx, withHeader. cbn [wStatus wHeader].
      rewrite Hs. cbn [wInterim wBody wHeader]. rewrite Hh, <- app_assoc.
      reflexivity.
    + unfold got1xxResponse, WriteHeader1xx, withHeader. cbn [wStatus].
      by rewrite Hs.
    + reflexivity.
Qed.

(** The writer behind the hook calls of one round trip. *)
Lemma got1xx_fold l w :
  wStatus w = None ->
  fold_left got1xxResponse l w
  = {| wHeader := leftBy l (wHeader w);
       wInterim := wInterim w ++ sentInterims (wHeader w) l;
       wStatus := None; wBody := wBody w |}.
Proof.
  intros Hs. destruct l as [|i rest]; cbn [fold_left leftBy sentInterims].
  - rewrite app_nil_r. destruct w; cbn in *; by subst.
  - rewrite got1xx_cleared.
    + unfold got1xxResponse, WriteHeader1xx, withHeader. cbn [wStatus wHeader].
      rewrite Hs. cbn [wInterim wBody]. by rewrite <- app_assoc.
    + unfold got1xxResponse, WriteHeader1xx, withHeader. cbn [wStatus].
      by rewrite Hs.
    + reflexivity.
Qed.

(** What the caller sees of a relayed response. *)
Lemma ServeHTTP_relayed upstream w r resp :
  wStatus w = None ->
  Result (upstream r) = Some resp ->
  ServeHTTP upstream Limited.ModifyResponse w r
  = {| wHeader := copyHeader (leftBy (Got1xx (upstream r)) (wHeader w))
                    (RespHeader (Limited.ModifyResponse resp));
       wInterim := wInterim w ++ sentInterims (wHeader w) (Got1xx (upstream r));
       wStatus := Some (StatusCode resp);
       wBody := wBody w +:+ RespBody resp |}.
Proof.
  intros Hs H. unfold ServeHTTP. cbv zeta. rewrite H, (got1xx_fold _ _ Hs).
  reflexivity.
Qed.

(** What the caller sees of a failed round trip. *)
Lemma ServeHTTP_failed upstream modifyResponse w r :
  wStatus w = None ->
  Result (upstream r) = None ->
  ServeHTTP upstream modifyResponse w r
  = {| wHeader := leftBy (Got1xx (upstream r)) (wHeader w);
       wInterim := wInterim w ++ sentInterims (wHeader w) (Got1xx (upstream r));
       wStatus := Some StatusBadGateway;
       wBody := wBody w |}.
Proof.
  intros Hs H. unfold ServeHTTP. cbv zeta. rewrite H, (got1xx_fold _ _ Hs).
  reflexivity.
Qed.

(** The claim as the specification words it: of every CORS response
    header, the caller sees the origin policy's values and no other. *)
Definition only_policy_cors_visible : Prop :=
  forall upstream now r world k,
    routed r = true ->
    (RateLimit.isRateLimited now (Identity.extractClientIP (RemoteAddr r))
       (rateLimitStore world)).1 = false ->
    In k corsResponseHeaders ->
    Values k (wHeader (Limited.graphqlMiddleware upstream now r world).1)
    = Values k (wHeader (Limited.setOriginPolicy newResponseWriter)).

End CorsFacts.

Import HTTP Pipeline PipelineFacts CorsFacts Samples.


(** A backend that sends early hints before it answers as [echo] does. *)
Definition hinting (r : Request) : RoundTrip :=
  {| Got1xx := [{| InterimCode := 103;
                   InterimHeader := {[ "Link" := ["</style.css>; rel=preload"] ]} |}];
     Result := Some (echoResponse (default "" (Body r))) |}.



(** The two sample backends side by side: without an interim response the
    caller gets the policy's origin next to the upstream's
    [Access-Control-Max-Age]; behind early hints the final response has
    no [Access-Control-Allow-Origin] at all, the policy's value having
    gone out with the hints. *)
Example relayed_headers :
  let r := post "[::1]:4242" (dq "{'query':'{ me }'}") in
  let plain := (Limited.graphqlMiddleware echo 5 r fresh).1 in
  let hinted := (Limited.graphqlMiddleware hinting 5 r fresh).1 in
  wHeader plain !! "Access-Control-Allow-Origin" = Some ["http://localhost:3000"]
  /\ wHeader plain !! "Access-Control-Max-Age" = Some ["600"]
  /\ wInterim plain = []
  /\ wHeader hinted !! "Access-Control-Allow-Origin" = None
  /\ wHeader hinted !! "Access-Control-Max-Age" = Some ["600"]
  /\ map InterimCode (wInterim hinted) = [103]
  /\ map (fun i => InterimHeader i !! "Access-Control-Allow-Origin") (wInterim hinted)
     = [Some ["http://localhost:3000"]]
  /\ wStatus hinted = Some 200.
Proof. vm_compute. by repeat split. Qed.

(** ** Payload maps *)

Module JSONFacts.

Import JSON.

Lemma compare_refl k : String.compare k k = Eq.
Proof.
  pose proof (String.compare_antisym k k) as H.
  destruct (String.compare k k); simpl in H; congruence.
Qed.

Lemma compare_ne k k' : String.compare k k' <> Eq -> k <> k'.
Proof. intros H ->. apply H, compare_refl. Qed.

Lemma lookup_assign_eq k v m : lookup k (assign k v m) = Some v.
Proof.
  induction m as [|[k' v'] rest IH]; simpl.
  - by rewrite String.eqb_refl.
  - destruct (String.compare k k') eqn:E; simpl.
    + by rewrite String.eqb_refl.
    + by rewrite String.eqb_refl.
    + destruct (String.eqb_spec k k') as [->|]; [|done].
      by rewrite compare_refl in E.
Qed.

Lemma lookup_assign_ne k k0 v m :
  k0 <> k -> lookup k0 (assign k v m) = lookup k0 m.
Proof.
  intros Hne. induction m as [|[k' v'] rest IH]; simpl.
  - destruct (String.eqb_spec k0 k); [done|reflexivity].
  - destruct (String.compare k k') eqn:E; simpl.
    + apply String.compare_eq_iff in E. subst k'.
      destruct (String.eqb_spec k0 k); [done|reflexivity].
    + destruct (String.eqb_spec k0 k); [done|reflexivity].
    + destruct (String.eqb_spec k0 k'); [done|exact IH].
Qed.

(** A body that is not valid JSON leaves the map nil. *)
Lemma Unmarshal_invalid data : Valid data = false -> Unmarshal data = None.
Proof.
  unfold Valid, Unmarshal. intros H.
  destruct (decode (bytes data)) as [v|]; [|done].
  apply bool_decide_eq_false in H. destruct H. eauto.
Qed.

End JSONFacts.

(** ** What the decoder stores *)

Module FloatFacts.

Import Float64.

Lemma iter_shr_1_nonneg p : forall mrs,
  0 <= shr_m mrs -> 0 <= shr_m (SpecFloat.iter_pos shr_1 p mrs).
Proof.
  assert (H1 : forall mrs, 0 <= shr_m mrs -> 0 <= shr_m (shr_1 mrs)).
  { intros [m r s] H. cbn in *. destruct m as [|[q|q|]|q]; cbn; lia. }
  induction p as [p IH|p IH|]; intros mrs H; cbn [SpecFloat.iter_pos].
  - apply IH, IH, H1, H.
  - apply IH, IH, H.
  - apply H1, H.
Qed.

Lemma shr_fexp_nonneg m e l :
  0 <= m -> 0 <= shr_m (shr_fexp prec emax m e l).1.
Proof.
  intros H. unfold shr_fexp, shr.
  assert (H0 : 0 <= shr_m (shr_record_of_loc m l))
    by (destruct l as [|[| |]]; exact H).
  destruct (fexp prec emax (Zdigits2 m + e) - e); cbn [fst]; try exact H0.
  by apply iter_shr_1_nonneg.
Qed.

Lemma binary_round_aux_not_nan sx mx ex lx :
  0 <= mx -> binary_round_aux prec emax sx mx ex lx <> S754_nan.
Proof.
  intros H. unfold binary_round_aux.
  pose proof (shr_fexp_nonneg mx ex lx H) as H1.
  destruct (shr_fexp prec emax mx ex lx) as [mrs' e']. cbn [fst] in H1.
  assert (H2 : 0 <= round_nearest_even (shr_m mrs') (loc_of_shr_record mrs')).
  { unfold round_nearest_even.
    destruct (loc_of_shr_record mrs') as [|[| |]]; try lia.
    destruct (IntDef.Z.even _); lia. }
  pose proof (shr_fexp_nonneg _ e' loc_Exact H2) as H3.
  destruct (shr_fexp prec emax _ e' loc_Exact) as [mrs'' e'']. cbn [fst] in H3.
  destruct (shr_m mrs''); [done| |lia].
  by destruct (e'' <=? emax - prec).
Qed.

Lemma binary_round_not_nan sx mx ex : binary_round prec emax sx mx ex <> S754_nan.
Proof.
  unfold binary_round. destruct (shl_align _ _ _) as [mz ez].
  by apply binary_round_aux_not_nan.
Qed.

Lemma ofDecimal_not_nan neg m k : ofDecimal neg m k <> S754_nan.
Proof.
  unfold ofDecimal. destruct m; try done.
  repeat case_match; try done; apply binary_round_not_nan.
Qed.

(** What [ParseFloat] accepts, the encoder can write. *)
Lemma ParseFloat_encodeFloat neg int frac expNeg exp f :
  ParseFloat neg int frac expNeg exp = Some f -> is_Some (encodeFloat f).
Proof.
  unfold ParseFloat. intros H.
  pose proof (ofDecimal_not_nan neg (digitsToZ (int ++ frac))
                ((if expNeg then - readExponent exp else readExponent exp)
                 - Z.of_nat (length frac))) as Hn.
  cbv zeta in H.
  destruct (ofDecimal _ _ _) as [s|s| |s m e] eqn:E; simplify_eq; try done.
  unfold encodeFloat. destruct (shortest m e). by destruct (_ || _).
Qed.

End FloatFacts.

Module EncoderFacts.

Import JSON JSONFacts.

(** The elements of an array and the members of an object, encoded. *)
Fixpoint encodeItems (l : list Value) : option (list (list ascii)) :=
  match l with
  | [] => Some []
  | x :: rest =>
      match encode x, encodeItems rest with
      | Some b, Some bs => Some (b :: bs)
      | _, _ => None
      end
  end.

Fixpoint encodeFields (m : list (string * Value)) : option (list (list ascii)) :=
  match m with
  | [] => Some []
  | (k, x) :: rest =>
      match encode x, encodeFields rest with
      | Some b, Some bs => Some ((appendString k ++ ":"%char :: b) :: bs)
      | _, _ => None
      end
  end.

Lemma encode_VSlice l :
  encode (VSlice l)
  = match encodeItems l with
    | Some bs => Some ("["%char :: joinComma bs ++ ["]"%char])
    | None => None
    end.
Proof.
  cbn [encode].
  match goal with
  | |- match ?f l with _ => _ end = _ =>
      assert (H : forall l, f l = encodeItems l);
      [clear; induction l as [|x rest IH]; [reflexivity|];
       cbn [encodeItems]; rewrite <- IH; reflexivity
      |by rewrite H]
  end.
Qed.

Lemma encode_VMap m :
  encode (VMap m)
  = match encodeFields m with
    | Some bs => Some ("{"%char :: joinComma bs ++ ["}"%char])
    | None => None
    end.
Proof.
  cbn [encode].
  match goal with
  | |- match ?f m with _ => _ end = _ =>
      assert (H : forall m, f m = encodeFields m);
      [clear; induction m as [|[k x] rest IH]; [reflexivity|];
       cbn [encodeFields]; rewrite <- IH; reflexivity
      |by rewrite H]
  end.
Qed.

(** Every value of the list, and of the map, can be encoded. *)
Lemma encodeItems_Some l :
  is_Some (encodeItems l) <-> Forall (fun x => is_Some (encode x)) l.
Proof.
  induction l as [|x rest IH]; cbn [encodeItems].
  - split; [constructor|done].
  - rewrite Forall_cons, <- IH.
    destruct (encode x), (encodeItems rest); split; try done;
      intros [[? ?] [? ?]]; done.
Qed.

Lemma encodeFields_Some m :
  is_Some (encodeFields m) <-> Forall (fun kv => is_Some (encode kv.2)) m.
Proof.
  induction m as [|[k x] rest IH]; cbn [encodeFields].
  - split; [constructor|done].
  - rewrite Forall_cons, <- IH. cbn [snd].
    destruct (encode x), (encodeFields rest); split; try done;
      intros [[? ?] [? ?]]; done.
Qed.

(** The members are the fields in order, each as its quoted name, a
    colon and the encoding of its value. *)
Lemma encodeFields_members m parts :
  encodeFields m = Some parts <->
  Forall2 (fun kv part =>
             exists e, encode kv.2 = Some e
                       /\ part = appendString kv.1 ++ ":"%char :: e) m parts.
Proof.
  revert parts. induction m as [|[k x] rest IH]; intros parts; cbn [encodeFields].
  - split.
    + intros [= <-]. constructor.
    + intros H. by inversion H.
  - split.
    + destruct (encode x) as [b|] eqn:E; [|done].
      destruct (encodeFields rest) as [bs|] eqn:E'; [|done].
      intros [= <-]. constructor; [by exists b|]. by apply IH.
    + intros H. inversion H as [|? part ? parts' (e & He & ->) Hrest]; subst.
      cbn [fst snd] in He. rewrite He. apply IH in Hrest. by rewrite Hrest.
Qed.

(** Keys in strictly ascending byte order, as [assign] keeps them. *)
Fixpoint ascendingKeys (m : list (string * Value)) : Prop :=
  match m with
  | [] => True
  | (k, _) :: rest =>
      Forall (fun kv => String.compare k kv.1 = Lt) rest /\ ascendingKeys rest
  end.

Lemma compare_trans a b c :
  String.compare a b = Lt -> String.compare b c = Lt -> String.compare a c = Lt.
Proof.
  intros H1 H2. apply String_as_OT.cmp_lt.
  eapply String_as_OT.lt_trans; apply String_as_OT.cmp_lt; eassumption.
Qed.

Lemma compare_Gt a b : String.compare a b = Gt -> String.compare b a = Lt.
Proof. intros H. rewrite String.compare_antisym, H. reflexivity. Qed.

Lemma assign_above k0 k v m :
  String.compare k0 k = Lt ->
  Forall (fun kv => String.compare k0 kv.1 = Lt) m ->
  Forall (fun kv => String.compare k0 kv.1 = Lt) (assign k v m).
Proof.
  intros Hk. induction m as [|[k' v'] rest IH]; intros Hm; cbn [assign].
  - by constructor.
  - inversion Hm as [|? ? Hk' Hrest]; subst.
    destruct (String.compare k k'); repeat constructor; auto.
Qed.

Lemma assign_ascending k v m :
  ascendingKeys m -> ascendingKeys (assign k v m).
Proof.
  induction m as [|[k' v'] rest IH]; intros Hm; cbn [assign].
  - by split.
  - destruct Hm as [Hk' Hrest].
    destruct (String.compare k k') eqn:E.
    + apply String.compare_eq_iff in E. subst k'. by split.
    + split; [|by split]. constructor; [exact E|].
      eapply Forall_impl; [exact Hk'|]. intros kv H. cbn beta in H.
      by eapply compare_trans.
    + split; [|by apply IH].
      apply assign_above; [by apply compare_Gt|exact Hk'].
Qed.

Lemma assign_encodable k v m :
  is_Some (encode v) -> is_Some (encodeFields m) ->
  is_Some (encodeFields (assign k v m)).
Proof.
  rewrite !encodeFields_Some. intros Hv.
  induction m as [|[k' v'] rest IH]; intros Hm; cbn [assign].
  - by repeat constructor.
  - inversion Hm as [|? ? Hv' Hrest]; subst.
    destruct (String.compare k k'); repeat constructor; auto.
Qed.

(** On ascending keys an assignment to a key the map holds replaces the
    value where it stands. *)
Lemma assign_in_place k v m old :
  ascendingKeys m -> lookup k m = Some old ->
  assign k v m = map (fun kv => if String.eqb kv.1 k then (k, v) else kv) m.
Proof.
  induction m as [|[k' v'] rest IH]; intros Hm Hl; [done|].
  destruct Hm as [Hk' Hrest]. cbn [assign map lookup fst] in *.
  destruct (String.eqb_spec k k') as [<-|Hne].
  - rewrite compare_refl, String.eqb_refl. f_equal.
    clear IH Hl Hrest. induction rest as [|[k2 v2] rest IH]; [done|].
    inversion Hk' as [|? ? H2 Hr]; subst. cbn [map fst] in *.
    destruct (String.eqb_spec k2 k) as [->|_].
    + by rewrite compare_refl in H2.
    + f_equal. by apply IH.
  - destruct (String.eqb_spec k' k) as [->|_]; [done|].
    destruct (String.compare k k') eqn:E.
    + apply String.compare_eq_iff in E. done.
    + exfalso. clear IH. induction rest as [|[k2 v2] rest IH]; [done|].
      inversion Hk' as [|? ? H2 Hr]; subst. cbn [lookup fst] in *.
      destruct (String.eqb_spec k k2) as [->|_].
      * rewrite (compare_trans _ _ _ E H2) in H2 || idtac.
        pose proof (compare_trans _ _ _ E H2) as H3.
        by rewrite compare_refl in H3.
      * destruct Hrest as [_ Hrest]. by apply IH.
    + f_equal. by apply IH.
Qed.

End EncoderFacts.

Module DecoderFacts.

Import UTF8 JSON JSONFacts FloatFacts EncoderFacts.

(** What the decoder stores can be encoded again, and an object it
    stores has its keys in ascending order. *)
Definition stored (v : Value) : Prop :=
  is_Some (encode v)
  /\ match v with
     | VMap m => ascendingKeys m
     | _ => True
     end.

Lemma value_S fuel depth l :
  value (S fuel) depth l
  = match skipSpace l with
    | [] => None
    | c :: rest =>
        if Ascii.eqb c "{" then
          if (maxNestingDepth <? depth + 1)%N then None
          else
            match skipSpace rest with
            | [] => None
            | c' :: rest' =>
                if Ascii.eqb c' "}" then Some (VMap [], rest')
                else members fuel (depth + 1)%N (c' :: rest') []
            end
        else if Ascii.eqb c "[" then
          if (maxNestingDepth <? depth + 1)%N then None
          else
            match skipSpace rest with
            | [] => None
            | c' :: rest' =>
                if Ascii.eqb c' "]" then Some (VSlice [], rest')
                else elements fuel (depth + 1)%N (c' :: rest') []
            end
        else if Ascii.eqb c "034" then
          match unquote (S (length rest)) rest [] with
          | Some (s, r) => Some (VString (str s), r)
          | None => None
          end
        else if Ascii.eqb c "t" then
          option_map (pair (VBool true)) (literal (bytes "rue") rest)
        else if Ascii.eqb c "f" then
          option_map (pair (VBool false)) (literal (bytes "alse") rest)
        else if Ascii.eqb c "n" then
          option_map (pair VNil) (literal (bytes "ull") rest)
        else number (c :: rest)
    end.
Proof. reflexivity. Qed.

Lemma members_S fuel depth l acc :
  members (S fuel) depth l acc
  = match l with
    | [] => None
    | q :: rest =>
        if negb (Ascii.eqb q "034") then None
        else
          match unquote (S (length rest)) rest [] with
          | None => None
          | Some (k, r1) =>
              match skipSpace r1 with
              | [] => None
              | colon :: r2 =>
                  if negb (Ascii.eqb colon ":") then None
                  else
                    match value fuel depth r2 with
                    | None => None
                    | Some (v, r3) =>
                        let acc' := assign (str k) v acc in
                        match skipSpace r3 with
                        | [] => None
                        | sep :: r4 =>
                            if Ascii.eqb sep "," then
                              members fuel depth (skipSpace r4) acc'
                            else if Ascii.eqb sep "}" then Some (VMap acc', r4)
                            else None
                        end
                    end
              end
          end
    end.
Proof. reflexivity. Qed.

Lemma elements_S fuel depth l acc :
  elements (S fuel) depth l acc
  = match value fuel depth l with
    | None => None
    | Some (v, r) =>
        match skipSpace r with
        | [] => None
        | sep :: r' =>
            if Ascii.eqb sep "," then elements fuel depth r' (acc ++ [v])
            else if Ascii.eqb sep "]" then Some (VSlice (acc ++ [v]), r')
            else None
        end
    end.
Proof. reflexivity. Qed.

Lemma number_stored l v r : number l = Some (v, r) -> stored v.
Proof.
  unfold number. intros H.
  repeat case_match; simplify_eq; try (by split);
    (split; [|done]); cbn [encode]; eapply ParseFloat_encodeFloat; eassumption.
Qed.

Lemma decoder_stored fuel :
  (forall depth l v r, value fuel depth l = Some (v, r) -> stored v)
  /\ (forall depth l acc v r,
        ascendingKeys acc -> is_Some (encodeFields acc) ->
        members fuel depth l acc = Some (v, r) -> stored v)
  /\ (forall depth l acc v r,
        is_Some (encodeItems acc) ->
        elements fuel depth l acc = Some (v, r) -> stored v).
Proof.
  induction fuel as [|fuel (IHv & IHm & IHe)]; [by repeat split|].
  split; [|split].
  - intros depth l v r H. rewrite value_S in H.
    destruct (skipSpace l) as [|c rest]; [done|].
    destruct (Ascii.eqb c "{").
    { destruct (maxNestingDepth <? depth + 1)%N; [done|].
      destruct (skipSpace rest) as [|c' rest']; [done|].
      destruct (Ascii.eqb c' "}").
      - simplify_eq. by split.
      - eapply IHm; [| |exact H]; done. }
    destruct (Ascii.eqb c "[").
    { destruct (maxNestingDepth <? depth + 1)%N; [done|].
      destruct (skipSpace rest) as [|c' rest']; [done|].
      destruct (Ascii.eqb c' "]").
      - simplify_eq. by split.
      - eapply IHe; [|exact H]; done. }
    destruct (Ascii.eqb c "034").
    { destruct (unquote (S (length rest)) rest []) as [[s r']|]; [|done].
      simplify_eq. by split. }
    destruct (Ascii.eqb c "t").
    { destruct (literal (bytes "rue") rest); [|done].
      cbn [option_map] in H. simplify_eq. by split. }
    destruct (Ascii.eqb c "f").
    { destruct (literal (bytes "alse") rest); [|done].
      cbn [option_map] in H. simplify_eq. by split. }
    destruct (Ascii.eqb c "n").
    { destruct (literal (bytes "ull") rest); [|done].
      cbn [option_map] in H. simplify_eq. by split. }
    by eapply number_stored.
  - intros depth l acc v r Hacc Henc H. rewrite members_S in H.
    destruct l as [|q rest]; [done|].
    destruct (negb (Ascii.eqb q "034")); [done|].
    destruct (unquote (S (length rest)) rest []) as [[k r1]|]; [|done].
    destruct (skipSpace r1) as [|colon r2]; [done|].
    destruct (negb (Ascii.eqb colon ":")); [done|].
    destruct (value fuel depth r2) as [[x r3]|] eqn:Hx; [|done].
    cbv zeta in H.
    destruct (IHv _ _ _ _ Hx) as [Hxe _].
    pose proof (assign_ascending (str k) x acc Hacc) as Hacc'.
    pose proof (assign_encodable (str k) x acc Hxe Henc) as Henc'.
    destruct (skipSpace r3) as [|sep r4]; [done|].
    destruct (Ascii.eqb sep ",").
    { by eapply IHm; [| |exact H]. }
    destruct (Ascii.eqb sep "}"); [|done].
    simplify_eq. split; [|done].
    rewrite encode_VMap. by destruct Henc' as [bs ->].
  - intros depth l acc v r Henc H. rewrite elements_S in H.
    destruct (value fuel depth l) as [[x r']|] eqn:Hx; [|done].
    destruct (IHv _ _ _ _ Hx) as [Hxe _].
    assert (Henc' : is_Some (encodeItems (acc ++ [x]))).
    { apply encodeItems_Some, Forall_app. split.
      - by apply encodeItems_Some.
      - by repeat constructor. }
    destruct (skipSpace r') as [|sep r'']; [done|].
    destruct (Ascii.eqb sep ",").
    { by eapply IHe; [|exact H]. }
    destruct (Ascii.eqb sep "]"); [|done].
    simplify_eq. split; [|done].
    rewrite encode_VSlice. by destruct Henc' as [bs ->].
Qed.

(** The payload [Unmarshal] gives has ascending keys, and every value of
    it can be encoded. *)
Lemma Unmarshal_stored data m :
  Unmarshal data = Some m ->
  ascendingKeys m /\ exists parts, encodeFields m = Some parts.
Proof.
  unfold Unmarshal, decode. intros H.
  destruct (value _ 0 (bytes data)) as [[v rest]|] eqn:Hv; [|done].
  destruct (skipSpace rest); [|done].
  destruct v; try done. simplify_eq.
  destruct (proj1 (decoder_stored _) _ _ _ _ Hv) as [He Hs].
  split; [exact Hs|].
  rewrite encode_VMap in He. destruct (encodeFields m) as [parts|]; [by eexists|].
  by destruct He.
Qed.

End DecoderFacts.

Module RewriteFacts.

Import JSON HTTP Pipeline PipelineFacts JSONFacts EncoderFacts DecoderFacts.

(** The string [query] of a decoded payload, if it has one. *)
Definition stringQuery (payload : option (list (string * Value))) : option string :=
  match payload with
  | Some m => match lookup "query" m with
              | Some (VString q) => Some q
              | _ => None
              end
  | None => None
  end.

Lemma rewrite_query sanitize body m q :
  Unmarshal body = Some m -> lookup "query" m = Some (VString q) ->
  rewrite sanitize body
  = (q, sanitize q, Some (assign "query" (VString (sanitize q)) m)).
Proof. intros H1 H2. unfold rewrite. by rewrite H1, H2. Qed.

Lemma rewrite_no_query sanitize body :
  stringQuery (Unmarshal body) = None ->
  rewrite sanitize body = ("", "", Unmarshal body).
Proof.
  unfold rewrite, stringQuery. destruct (Unmarshal body) as [m|]; [|done].
  destruct (lookup "query" m) as [[| | |q| |]|]; done.
Qed.

Lemma outbound_fields sanitize r :
  let out := outbound sanitize r in
  Body out = Some (newBody (rewrite sanitize (readBody r)).2)
  /\ ContentLength out
     = Z.of_nat (String.length (newBody (rewrite sanitize (readBody r)).2))
  /\ Method out = Method r /\ Path out = Path r
  /\ Header out = Header r /\ RemoteAddr out = RemoteAddr r.
Proof. by repeat split. Qed.

(** The value the handlers hand on for a field of the decoded payload:
    the sanitized string for a string under [query], the value as it was
    decoded for every other field and for a [query] of another type. *)
Definition handedOnAs (sanitize : string -> string) (kv : string * Value) : Value :=
  match kv.2 with
  | VString q => if String.eqb kv.1 "query" then VString (sanitize q) else kv.2
  | v => v
  end.

Lemma lookup_In k v m : ascendingKeys m -> In (k, v) m -> lookup k m = Some v.
Proof.
  induction m as [|[k' v'] rest IH]; intros Hm Hin; [done|].
  destruct Hm as [Hk' Hrest]. cbn [lookup].
  destruct Hin as [[= -> ->]|Hin]; [by rewrite String.eqb_refl|].
  destruct (String.eqb_spec k k') as [->|_]; [|by apply IH].
  rewrite Forall_forall in Hk'. apply list_elem_of_In, Hk' in Hin.
  cbn [fst] in Hin. by rewrite compare_refl in Hin.
Qed.

(** The payload that is re-serialized: the decoded one, field by field
    and in the same order, with the value of a string [query] replaced. *)
Lemma rewrite_fields sanitize body m :
  Unmarshal body = Some m ->
  (rewrite sanitize body).2
  = Some (map (fun kv => (kv.1, handedOnAs sanitize kv)) m).
Proof.
  intros Hm. destruct (Unmarshal_stored _ _ Hm) as [Hasc _].
  unfold rewrite. rewrite Hm.
  destruct (lookup "query" m) as [v|] eqn:Hq.
  - assert (Hmap : forall w,
      map (fun kv => if String.eqb kv.1 "query" then ("query", w v) else kv) m
      = map (fun kv => (kv.1, if String.eqb kv.1 "query" then w kv.2 else kv.2)) m).
    { intros w. apply map_ext_in. intros [k x] Hin. cbn [fst snd].
      destruct (String.eqb_spec k "query") as [->|_]; [|done].
      pose proof (lookup_In _ _ _ Hasc Hin) as Hx. by simplify_eq. }
    assert (Hsame : map (fun kv => (kv.1, handedOnAs sanitize kv)) m
                    = map (fun kv => (kv.1, if String.eqb kv.1 "query"
                                            then handedOnAs sanitize ("query", kv.2)
                                            else kv.2)) m).
    { apply map_ext_in. intros [k x] _. unfold handedOnAs. cbn [fst snd].
      destruct (String.eqb_spec k "query") as [->|_]; [done|].
      by destruct x. }
    rewrite Hsame.
    rewrite <- (Hmap (fun x => handedOnAs sanitize ("query", x))).
    destruct v as [| | |q| |]; cbn [snd];
      try (f_equal; unfold handedOnAs; cbn [fst snd];
           rewrite <- (map_id m) at 1; apply map_ext_in; intros [k x] Hin;
           cbn [fst]; destruct (String.eqb_spec k "query") as [->|_]; [|done];
           pose proof (lookup_In _ _ _ Hasc Hin) as Hx; by simplify_eq).
    f_equal. by apply assign_in_place with (old := VString q).
  - cbn [snd]. f_equal. rewrite <- (map_id m) at 1.
    apply map_ext_in. intros [k x] Hin. unfold handedOnAs. cbn [fst snd].
    destruct (String.eqb_spec k "query") as [->|_]; [|by destruct x].
    pose proof (lookup_In _ _ _ Hasc Hin) as Hx. congruence.
Qed.

(** The fields handed on can all be encoded. *)
Lemma handedOnAs_encodable sanitize m :
  is_Some (encodeFields m) ->
  is_Some (encodeFields (map (fun kv => (kv.1, handedOnAs sanitize kv)) m)).
Proof.
  rewrite !encodeFields_Some, List.Forall_map. intros H.
  eapply Forall_impl; [exact H|].
  intros [k x] Hx. unfold handedOnAs. cbn [fst snd] in *.
  destruct x; try done. by destruct (String.eqb k "query").
Qed.

(** The body both handlers hand on for a body that decodes as an
    object. *)
Lemma outbound_members sanitize r m :
  Unmarshal (readBody r) = Some m ->
  exists members,
    Forall2 (fun kv part =>
               exists e, encode (handedOnAs sanitize kv) = Some e
                         /\ part = appendString kv.1 ++ ":"%char :: e)
      m members
    /\ Body (outbound sanitize r)
       = Some (str ("{"%char :: joinComma members ++ ["}"%char])).
Proof.
  intros Hm. destruct (Unmarshal_stored _ _ Hm) as [_ [parts0 Hparts0]].
  destruct (handedOnAs_encodable sanitize m) as [members Hmem];
    [by rewrite Hparts0|].
  exists members. split.
  - apply encodeFields_members in Hmem.
    apply Forall2_fmap_l in Hmem. eapply Forall2_impl; [exact Hmem|].
    intros kv part H. exact H.
  - unfold outbound, withBody. cbn [Body].
    rewrite (rewrite_fields _ _ _ Hm). unfold newBody, Marshal.
    by rewrite encode_VMap, Hmem.
Qed.

End RewriteFacts.

Import JSON HTTP Pipeline PipelineFacts JSONFacts EncoderFacts DecoderFacts.
Import RewriteFacts Samples.

(** A body with an integer under [id], next to a query. *)
Definition withId (n : N) : string :=
  dq "{'id':" +:+ NilZero.string_of_uint (N.to_uint n)
  +:+ dq ",'query':'{ me }'}".

(** The claim as the specification words it, read on a field that holds
    an integer: the forwarded body has the field with the value it had in
    the body received, so two bodies that differ in that value are not
    forwarded as the same bytes. *)
Definition unknown_fields_unmodified : Prop :=
  forall a b : N,
    Body (outbound Limited.sanitizeGraphQLQuery (post "192.0.2.1:9" (withId a)))
    = Body (outbound Limited.sanitizeGraphQLQuery (post "192.0.2.1:9" (withId b))) ->
    a = b.


(** What else the decoder does to a field before it is handed on: a
    number beyond the range of [float64] becomes [null], of a repeated
    name the last value stands, and a number is written in the encoder's
    own form. *)
Example decoded_then_encoded :
  Body (outbound Limited.sanitizeGraphQLQuery
          (post "192.0.2.1:9"
             (dq "{'a':1e400,'b':1,'b':2,'c':0.10,'d':1E2,'f':123456789012345678901234567890}")))
  = Some (dq "{'a':null,'b':2,'c':0.1,'d':100,'f':1.2345678901234568e+29}").
Proof. by vm_compute. Qed.


Definition withVariables : string :=
  dq "{'variables':{'id':7,'tags':['a<b',null,true]},'query':'{ user(id: $id) { name; } }','operationName':null}".

(** The payload [withVariables] decodes to. *)
Definition withVariablesDecoded : list (string * Value) :=
  [("operationName", VNil);
   ("query", VString "{ user(id: $id) { name; } }");
   ("variables",
    VMap [("id", VFloat64 (S754_finite false 7881299347898368 (-50)));
          ("tags", VSlice [VString "a<b"; VNil; VBool true])])].


(** The sample body, as it is handed on. *)
Example withVariables_forwarded :
  newBody (rewrite Limited.sanitizeGraphQLQuery withVariables).2
  = dq "{'operationName':null,'query':'{ user(id: $id) { name } }','variables':{'id':7,'tags':['a\u003cb',null,true]}}".
Proof. vm_compute. reflexivity. Qed.

(** Decoded again, the body handed on gives the payload of the body
    received with the query sanitized. *)
Example withVariables_decoded_again :
  Unmarshal withVariables = Some withVariablesDecoded
  /\ Unmarshal (newBody (rewrite Limited.sanitizeGraphQLQuery withVariables).2)
     = Some (map (fun kv => (kv.1, handedOnAs Limited.sanitizeGraphQLQuery kv))
               withVariablesDecoded).
Proof. vm_compute. by split. Qed.

Import JSON HTTP Pipeline PipelineFacts JSONFacts RewriteFacts Samples.

(** What both handlers hand to the proxy for a routed request: the
    re-encoding of the payload, and [null] when the map is nil. *)
Lemma outbound_reserialized sanitize r :
  let out := outbound sanitize r in
  let payload := (rewrite sanitize (readBody r)).2 in
  Body out = Some (default "" (Marshal payload))
  /\ ContentLength out = Z.of_nat (String.length (default "" (Marshal payload)))
  /\ (Unmarshal (readBody r) = None ->
      payload = None /\ Body out = Some "null" /\ ContentLength out = 4)
  /\ (forall m, Unmarshal (readBody r) = Some m -> lookup "query" m = None ->
      payload = Some m
      /\ Body out = Some (default "" (Marshal (Unmarshal (readBody r))))).
Proof.
  cbv zeta. split; [done|]. split; [done|]. split.
  - intros H. unfold outbound. rewrite rewrite_no_query
      by (rewrite H; reflexivity).
    rewrite H. by repeat split.
  - intros m H Hq. unfold outbound. rewrite rewrite_no_query
      by (rewrite H; unfold stringQuery; rewrite Hq; reflexivity).
    rewrite H. by repeat split.
Qed.

Definition spaced : string := dq " { 'b' : 1.0 , 'a' : [ ] } ".

(** C10. The forwarded body is the re-serialization of the payload.  In
    both variants the request handed to the proxy for a routed request
    (in [part_000]: one the limiter admits) carries [json.Marshal] of the
    payload map as its body, with the length of that as content length:
    the body depends on the raw bytes through the decoded map only.  When
    the body does not decode the map is nil and the body is the four
    bytes [null], content length 4.  A body that decodes to an object
    without [query] is forwarded as the encoding of that object, which
    need not be the bytes received. *)
Theorem C10_reserialized :
  (forall upstream r world,
     routed r = true ->
     exists out,
       forwarded (Basic.graphqlMiddleware upstream r world).2
       = forwarded world ++ [out]
       /\ out = outbound Basic.sanitizeGraphQLQuery r)
  /\ (forall upstream now r world,
      routed r = true ->
      (RateLimit.isRateLimited now (Identity.extractClientIP (RemoteAddr r))
         (rateLimitStore world)).1 = false ->
      exists out,
        forwarded (Limited.graphqlMiddleware upstream now r world).2
        = forwarded world ++ [out]
        /\ out = outbound Limited.sanitizeGraphQLQuery r)
  /\ (forall sanitize r,
      let out := outbound sanitize r in
      let payload := (rewrite sanitize (readBody r)).2 in
      Body out = Some (default "" (Marshal payload))
      /\ ContentLength out
         = Z.of_nat (String.length (default "" (Marshal payload)))
      /\ (Unmarshal (readBody r) = None ->
          payload = None /\ Body out = Some "null" /\ ContentLength out = 4)
      /\ (forall m, Unmarshal (readBody r) = Some m -> lookup "query" m = None ->
          payload = Some m
          /\ Body out = Some (default "" (Marshal (Unmarshal (readBody r))))))
  /\ (forall sanitize r1 r2,
      Unmarshal (readBody r1) = Unmarshal (readBody r2) ->
      Body (outbound sanitize r1) = Body (outbound sanitize r2))
  /\ Body (outbound Limited.sanitizeGraphQLQuery (post "192.0.2.1:9" "not json"))
     = Some "null"
  /\ Body (outbound Limited.sanitizeGraphQLQuery (post "192.0.2.1:9" spaced))
     = Some (dq "{'a':[],'b':1}")
  /\ Body (outbound Basic.sanitizeGraphQLQuery (post "192.0.2.1:9" spaced))
     <> Some spaced.
Proof.
  split.
  { intros upstream r world Hr. eexists. rewrite (Basic_forwarded _ _ _ Hr).
    cbn [snd forwarded]. by split. }
  split.
  { intros upstream now r world Hr Hl. eexists.
    rewrite (Limited_forwarded _ _ _ _ Hr Hl). cbn [snd forwarded]. by split. }
  split; [apply outbound_reserialized|].
  split.
  { intros sanitize r1 r2 H. unfold outbound, withBody, rewrite. cbn [Body].
    by rewrite H. }
  split; [by vm_compute|]. split; [by vm_compute|]. by vm_compute.
Qed.

(** The end-to-end example of the specification, on the [;] variant. *)
Example end_to_end :
  let r := post "192.0.2.1:9" (dq "{'query':'{ users { id; name } }'}") in
  let '(w, world) := Basic.graphqlMiddleware echo r fresh in
  map Body (forwarded world) = [Some (dq "{'query':'{ users { id name } }'}")]
  /\ audits world
     = [{| auditIP := "192.0.2.1:9";
           auditRaw := "{ users { id; name } }";
           auditSanitized := "{ users { id name } }" |}].
Proof. vm_compute. by split. Qed.

Import JSON HTTP Pipeline PipelineFacts JSONFacts RewriteFacts Samples.

Module RecoveryFacts.

(** The claim as the specification words it, for the payload: a body that
    is not valid JSON or has no string [query] gives empty query strings
    and an empty payload (the nil map or one without fields). *)
Definition payload_treated_as_empty : Prop :=
  forall body,
    stringQuery (Unmarshal body) = None ->
    let '(originalQuery, cleanedQuery, payload) :=
      rewrite Limited.sanitizeGraphQLQuery body in
    originalQuery = "" /\ cleanedQuery = ""
    /\ (payload = None \/ payload = Some []).

Lemma invalid_lacks_query body :
  Valid body = false -> stringQuery (Unmarshal body) = None.
Proof. intros H. by rewrite Unmarshal_invalid. Qed.

End RecoveryFacts.

Import RecoveryFacts.

(** C5 as stated fails for a valid object without [query]: its fields
    stay in the payload and are forwarded. *)
Lemma C5_counterexample : ~ payload_treated_as_empty.
Proof.
  intros H. specialize (H (dq "{'operationName':'Q'}") eq_refl).
  vm_compute in H. destruct H as (_ & _ & [H|H]); discriminate H.
Qed.

(** C5, amended.  For a routed request whose body is not valid JSON or
    has no string [query]: both query strings are empty; the payload is
    what the decoder gave, unchanged - the nil map, forwarded as [null],
    when the body is not valid JSON.  The handler then either answers 429
    on the limiter's denial, forwarding and auditing nothing, or hands
    the re-encoded request to the proxy and dispatches the audit call
    with both queries empty; it has no failure answer of its own for the
    body. *)
Theorem C5_decode_failure (upstream : Request -> RoundTrip) (now : Time)
    (r : Request) (world : World) :
  routed r = true ->
  stringQuery (Unmarshal (readBody r)) = None ->
  let '(originalQuery, cleanedQuery, payload) :=
    rewrite Limited.sanitizeGraphQLQuery (readBody r) in
  let '(w, world') := Limited.graphqlMiddleware upstream now r world in
  let ip := Identity.extractClientIP (RemoteAddr r) in
  let limited := (RateLimit.isRateLimited now ip (rateLimitStore world)).1 in
  originalQuery = "" /\ cleanedQuery = ""
  /\ payload = Unmarshal (readBody r)
  /\ (Valid (readBody r) = false -> payload = None /\ newBody payload = "null")
  /\ (limited = true ->
      wStatus w = Some StatusTooManyRequests
      /\ forwarded world' = forwarded world
      /\ audits world' = audits world)
  /\ (limited = false ->
      forwarded world'
      = forwarded world ++ [withBody r (newBody (Unmarshal (readBody r)))]
      /\ audits world'
         = audits world
           ++ [{| auditIP := ip; auditRaw := ""; auditSanitized := "" |}]
      /\ w = ServeHTTP upstream Limited.ModifyResponse
               (Limited.setOriginPolicy newResponseWriter)
               (withBody r (newBody (Unmarshal (readBody r))))).
Proof.
  intros Hr Hq.
  pose proof (rewrite_no_query Limited.sanitizeGraphQLQuery _ Hq) as Hrw.
  destruct (Limited.graphqlMiddleware upstream now r world) as [w world'] eqn:Hh.
  rewrite Hrw. cbv zeta.
  split; [done|]. split; [done|]. split; [done|]. split.
  { intros Hv. by rewrite (Unmarshal_invalid _ Hv). }
  split.
  - intros Hl. rewrite (Limited_limited _ _ _ _ Hr Hl) in Hh.
    injection Hh as <- <-. by repeat split.
  - intros Hl. rewrite (Limited_forwarded _ _ _ _ Hr Hl) in Hh.
    injection Hh as <- <-. unfold outbound, auditOf. rewrite Hrw.
    by repeat split.
Qed.

Lemma C5_decode_failure_witness :
  let r := post "192.0.2.1:9" "query { me }" in
  let '(originalQuery, cleanedQuery, payload) :=
    rewrite Limited.sanitizeGraphQLQuery (readBody r) in
  let '(w, world') := Limited.graphqlMiddleware echo 3 r fresh in
  let ip := Identity.extractClientIP (RemoteAddr r) in
  let limited := (RateLimit.isRateLimited 3 ip (rateLimitStore fresh)).1 in
  originalQuery = "" /\ cleanedQuery = ""
  /\ payload = Unmarshal (readBody r)
  /\ (Valid (readBody r) = false -> payload = None /\ newBody payload = "null")
  /\ (limited = true ->
      wStatus w = Some StatusTooManyRequests
      /\ forwarded world' = forwarded fresh
      /\ audits world' = audits fresh)
  /\ (limited = false ->
      forwarded world'
      = forwarded fresh ++ [withBody r (newBody (Unmarshal (readBody r)))]
      /\ audits world'
         = audits fresh
           ++ [{| auditIP := ip; auditRaw := ""; auditSanitized := "" |}]
      /\ w = ServeHTTP echo Limited.ModifyResponse
               (Limited.setOriginPolicy newResponseWriter)
               (withBody r (newBody (Unmarshal (readBody r))))).
Proof.
  apply (C5_decode_failure echo 3 (post "192.0.2.1:9" "query { me }") fresh).
  - reflexivity.
  - vm_compute. reflexivity.
Defined.

(** ** Schedules of admission checks *)

Module ConcurrentFacts.

Import RateLimit RateLimitFacts Concurrent.

(** Three consecutive steps of one goroutine are one call of
    [isRateLimited] on the table as it stands. *)
Lemma run_call ip i now c :
  goroutines c !! i = Some (Start now) ->
  run ip [i; i; i] c
  = {| store := (isRateLimited now ip (store c)).2;
       goroutines :=
         <[i := Returned (isRateLimited now ip (store c)).1]> (goroutines c) |}.
Proof.
  intros Hi. pose proof (lookup_lt_Some _ _ _ Hi) as Hlt.
  unfold run. simpl fold_left. unfold step at 3. rewrite Hi.
  unfold step at 2. cbn [goroutines store].
  rewrite list_lookup_insert_eq by done.
  unfold step. cbn [goroutines store].
  rewrite list_lookup_insert_eq by (by rewrite length_insert).
  unfold isRateLimited.
  destruct (maxRequestsPerMinute <=? length (pruned now (entry ip (store c))))%nat;
    cbn [fst snd]; by rewrite !list_insert_insert_eq.
Qed.

Lemma oneAtATime_S first n :
  oneAtATime first (S n) = [first; first; first] ++ oneAtATime (S first) n.
Proof. reflexivity. Qed.

(** Run one at a time, the goroutines compute [checks]. *)
Lemma run_oneAtATime ip nows : forall done table,
  run ip (oneAtATime (length done) (length nows))
    {| store := table; goroutines := done ++ map Start nows |}
  = {| store := (checks ip nows table).2;
       goroutines := done ++ map Returned (checks ip nows table).1 |}.
Proof.
  induction nows as [|now rest IH]; intros done table; [reflexivity|].
  cbn [length]. rewrite oneAtATime_S. unfold run. rewrite fold_left_app.
  fold (run ip [length done; length done; length done]
          {| store := table; goroutines := done ++ map Start (now :: rest) |}).
  rewrite (run_call ip (length done) now)
    by (cbn [goroutines map]; by rewrite list_lookup_middle).
  cbn [store goroutines map].
  rewrite insert_app_r_alt by lia. rewrite Nat.sub_diag. cbn [insert list_insert].
  change (checks ip (now :: rest) table)
    with (let '(v, store1) := isRateLimited now ip table in
          let '(vs, store2) := checks ip rest store1 in (v :: vs, store2)).
  destruct (isRateLimited now ip table) as [v store1]. cbn [fst snd].
  specialize (IH (done ++ [Returned v]) store1).
  rewrite length_app in IH. cbn [length] in IH.
  rewrite Nat.add_1_r in IH. rewrite <- app_assoc in IH. cbn [app] in IH.
  fold (run ip (oneAtATime (S (length done)) (length rest))
          {| store := store1; goroutines := done ++ Returned v :: map Start rest |}).
  rewrite IH. destruct (checks ip rest store1) as [vs store2]. cbn [fst snd map].
  by rewrite <- app_assoc.
Qed.

Lemma checks_app ip nows1 nows2 table :
  checks ip (nows1 ++ nows2) table
  = ((checks ip nows1 table).1
       ++ (checks ip nows2 (checks ip nows1 table).2).1,
     (checks ip nows2 (checks ip nows1 table).2).2).
Proof.
  revert table. induction nows1 as [|now rest IH]; intros table; simpl.
  - by destruct (checks ip nows2 table).
  - destruct (isRateLimited now ip table) as [v store1].
    rewrite IH. destruct (checks ip rest store1) as [vs store2]. simpl.
    by destruct (checks ip nows2 store2).
Qed.

(** With the limit on record and in the window, every check is denied
    and the entry stays as it is. *)
Lemma checks_at_limit ip nows : forall table,
  Forall (fun now => Forall (inWindow now) (entry ip table)) nows ->
  (maxRequestsPerMinute <= length (entry ip table))%nat ->
  (checks ip nows table).1 = repeat true (length nows)
  /\ entry ip (checks ip nows table).2 = entry ip table.
Proof.
  induction nows as [|now rest IH]; intros table Hwin Hlen; [done|].
  inversion Hwin as [|? ? Hnow Hrest]; subst. simpl.
  rewrite isRateLimited_denied by (by rewrite pruned_all_recent).
  rewrite pruned_all_recent by done.
  specialize (IH (<[ip := entry ip table]> table)).
  rewrite entry_insert in IH. destruct (IH Hrest Hlen) as [IH1 IH2].
  destruct (checks ip rest _) as [vs store2]. simpl in *.
  by rewrite IH1, IH2.
Qed.

Lemma count_admitted vs :
  length (List.filter admitted (map Returned vs))
  = length (List.filter negb vs).
Proof. induction vs as [|[] vs IH]; simpl; [done|done|by rewrite IH]. Qed.

Lemma count_denied vs :
  length (List.filter denied (map Returned vs))
  = length (List.filter id vs).
Proof. induction vs as [|[] vs IH]; simpl; [done|by rewrite IH|done]. Qed.

Lemma count_returned vs :
  length (List.filter returned (map Returned vs)) = length vs.
Proof. induction vs as [|v vs IH]; simpl; [done|by rewrite IH]. Qed.

Lemma filter_negb_repeat n m :
  List.filter negb (repeat false n ++ repeat true m) = repeat false n.
Proof.
  induction n as [|n IH]; simpl; [|by rewrite IH].
  induction m as [|m IH]; simpl; done.
Qed.

Lemma filter_id_repeat n m :
  List.filter id (repeat false n ++ repeat true m) = repeat true m.
Proof.
  induction n as [|n IH]; simpl; [|done].
  induction m as [|m IH]; simpl; [done|by rewrite IH].
Qed.

(** The claim as the specification words it: whatever the order in which
    the goroutines of more than fifty simultaneous requests of one client
    take their steps, once all have returned exactly fifty were admitted. *)
Definition admission_atomic : Prop :=
  forall (ip : string) (nows : list Time) (schedule : list nat),
    (maxRequestsPerMinute < length nows)%nat ->
    Forall (fun now => Forall (inWindow now) nows) nows ->
    let c := run ip schedule (spawn nows ∅) in
    count returned c = length nows ->
    count admitted c = maxRequestsPerMinute.

End ConcurrentFacts.

Import RateLimit RateLimitFacts Concurrent ConcurrentFacts.

(** C3 as stated fails: when fifty-one goroutines all read the table
    before any of them writes it, every one finds an empty entry and all
    fifty-one requests are admitted. *)
Lemma C3_counterexample : ~ admission_atomic.
Proof.
  intros H.
  specialize (H "10.0.0.7" (map Z.of_nat (seq 1 51)) (readThenFinish 51)).
  assert (H1 : (maxRequestsPerMinute < length (map Z.of_nat (seq 1 51)))%nat)
    by (vm_compute; lia).
  assert (H2 : Forall (fun now => Forall (inWindow now) (map Z.of_nat (seq 1 51)))
                 (map Z.of_nat (seq 1 51)))
    by (refine (bool_decide_unpack _ _); vm_compute; exact I).
  specialize (H H1 H2). cbv zeta in H.
  assert (H3 : count returned
                 (run "10.0.0.7" (readThenFinish 51)
                    (spawn (map Z.of_nat (seq 1 51)) ∅)) = 51%nat)
    by (vm_compute; reflexivity).
  specialize (H H3). vm_compute in H. discriminate H.
Qed.

(** C3, amended.  The table is a plain map without a lock, so the
    read-modify-write is atomic only when the calls do not interleave.
    When the goroutines of N requests of one client, N above the limit
    and all within one window, run [isRateLimited] one at a time, all
    return, exactly fifty are admitted and the other N - 50 are denied. *)
Theorem C3_one_at_a_time (ip : string) (table : gmap string (list Time))
    (nows : list Time) :
  table !! ip = None ->
  (maxRequestsPerMinute < length nows)%nat ->
  Forall (fun now => Forall (inWindow now) nows) nows ->
  let c := run ip (oneAtATime 0 (length nows)) (spawn nows table) in
  count returned c = length nows
  /\ count admitted c = maxRequestsPerMinute
  /\ count denied c = (length nows - maxRequestsPerMinute)%nat.
Proof.
  intros Hnew Hlen Hwin. cbv zeta. unfold spawn.
  pose proof (run_oneAtATime ip nows [] table) as Hrun.
  cbn [length app] in Hrun. rewrite Hrun. clear Hrun.
  unfold count. cbn [goroutines].
  rewrite count_returned, count_admitted, count_denied.
  rewrite <- (take_drop maxRequestsPerMinute nows) in Hwin |- *.
  set (first := take maxRequestsPerMinute nows) in *.
  set (rest := drop maxRequestsPerMinute nows) in *.
  assert (Hf : length first = maxRequestsPerMinute)
    by (unfold first; rewrite length_take; lia).
  assert (Hr : length rest = (length nows - maxRequestsPerMinute)%nat)
    by (unfold rest; by rewrite length_drop).
  assert (Hall : forall a b, a ∈ first ++ rest -> b ∈ first ++ rest -> inWindow a b).
  { intros a b Ha Hb. rewrite Forall_forall in Hwin.
    specialize (Hwin a Ha). rewrite Forall_forall in Hwin. auto. }
  rewrite checks_app. cbn [fst snd].
  destruct (checks_below_limit ip first table) as [Hv1 He1].
  { rewrite (entry_unseen _ _ Hnew). apply Forall_forall. intros; constructor. }
  { apply Forall_forall. intros a Ha. apply Forall_forall. intros b Hb.
    apply Hall; apply elem_of_app; by left. }
  { rewrite (entry_unseen _ _ Hnew). simpl. lia. }
  rewrite (entry_unseen _ _ Hnew) in He1. simpl in He1.
  destruct (checks_at_limit ip rest (checks ip first table).2) as [Hv2 _].
  { rewrite He1. apply Forall_forall. intros a Ha. apply Forall_forall.
    intros b Hb. apply Hall; apply elem_of_app; [by right|by left]. }
  { rewrite He1. lia. }
  rewrite Hv1, Hv2, filter_negb_repeat, filter_id_repeat.
  rewrite !length_app, !repeat_length, Hf, Hr.
  repeat split; lia.
Qed.

Lemma C3_one_at_a_time_witness :
  let nows := map Z.of_nat (seq 1 51) in
  let c := run "10.0.0.7" (oneAtATime 0 (length nows)) (spawn nows ∅) in
  count returned c = length nows
  /\ count admitted c = maxRequestsPerMinute
  /\ count denied c = (length nows - maxRequestsPerMinute)%nat.
Proof.
  apply (C3_one_at_a_time "10.0.0.7" ∅ (map Z.of_nat (seq 1 51))).
  - reflexivity.
  - vm_compute. lia.
  - refine (bool_decide_unpack _ _). vm_compute. exact I.
Defined.

(** * Further properties of the code *)

(** ** The sliding window under a monotone clock *)

Module WindowFacts.

Import RateLimit RateLimitFacts.

(** The test of the pruning loop, line 75. *)
Definition recent (now t : Time) : bool := Sub now t <=? rateLimitWindow.

(** [t] lies in the window of length [rateLimitWindow] that ends at [T]. *)
Definition within (T t : Time) : bool := (T - rateLimitWindow <=? t) && (t <=? T).

(** Successive readings of the monotonic clock, none before [last]. *)
Fixpoint ascending (last : Time) (nows : list Time) : Prop :=
  match nows with
  | [] => True
  | now :: rest => last <= now /\ ascending now rest
  end.

(** The readings at which a check was admitted. *)
Fixpoint admittedAt (nows : list Time) (verdicts : list bool) : list Time :=
  match nows, verdicts with
  | now :: nows', limited :: verdicts' =>
      if limited then admittedAt nows' verdicts'
      else now :: admittedAt nows' verdicts'
  | _, _ => []
  end.

Lemma recent_spec now t : recent now t = true <-> now - t <= Minute.
Proof.
  unfold recent, rateLimitWindow. rewrite Z.leb_le. apply GoTimeFacts.Sub_le_Minute.
Qed.

Lemma recent_mono last now t : last <= now -> recent now t = true -> recent last t = true.
Proof. rewrite !recent_spec. lia. Qed.

Lemma filter_filter_weaker {A} (p q : A -> bool) (l : list A) :
  (forall x, p x = true -> q x = true) ->
  List.filter p (List.filter q l) = List.filter p l.
Proof.
  intros H. induction l as [|x l IH]; simpl; [done|].
  destruct (q x) eqn:Hq; simpl.
  - destruct (p x); by rewrite IH.
  - destruct (p x) eqn:Hp; [|done]. apply H in Hp. congruence.
Qed.

Lemma filter_length_weaker {A} (p q : A -> bool) (l : list A) :
  (forall x, p x = true -> q x = true) ->
  (length (List.filter p l) <= length (List.filter q l))%nat.
Proof.
  intros H. induction l as [|x l IH]; simpl; [done|].
  destruct (p x) eqn:Hp.
  - rewrite (H _ Hp). simpl. lia.
  - destruct (q x); simpl; lia.
Qed.

Lemma last_cons (x : Time) l d : List.last (x :: l) d = List.last l x.
Proof.
  revert x d. induction l as [|y l IH]; intros x d; [done|].
  change (List.last (x :: y :: l) d) with (List.last (y :: l) d).
  by rewrite !IH.
Qed.

Lemma pruned_recent now requests : pruned now requests = List.filter (recent now) requests.
Proof. apply pruned_filter. Qed.

(** What the entry holds once the clock has only moved forward: the
    admitted readings that are still recent. *)
Lemma checks_entry ip nows : forall last admitted store,
  ascending last nows ->
  entry ip store = List.filter (recent last) admitted ->
  entry ip (checks ip nows store).2
  = List.filter (recent (List.last nows last))
      (admitted ++ admittedAt nows (checks ip nows store).1).
Proof.
  induction nows as [|now rest IH]; intros last admitted store Hasc Hentry.
  - simpl. by rewrite app_nil_r.
  - destruct Hasc as [Hle Hasc].
    assert (Hp : pruned now (entry ip store) = List.filter (recent now) admitted).
    { rewrite pruned_recent, Hentry. apply filter_filter_weaker.
      intros t. by apply recent_mono. }
    cbn [checks].
    destruct (Nat.leb_spec maxRequestsPerMinute
                (length (pruned now (entry ip store)))) as [Hfull|Hroom].
    + rewrite (isRateLimited_denied _ _ _ Hfull).
      specialize (IH now admitted (<[ip := pruned now (entry ip store)]> store) Hasc).
      rewrite entry_insert in IH. specialize (IH Hp).
      destruct (checks ip rest _) as [vs store2]. cbn [fst snd admittedAt] in *.
      by rewrite IH, last_cons.
    + rewrite (isRateLimited_allowed _ _ _ Hroom).
      specialize (IH now (admitted ++ [now])
                    (<[ip := pruned now (entry ip store) ++ [now]]> store) Hasc).
      rewrite entry_insert in IH.
      assert (Hn : recent now now = true) by (apply recent_spec; unfold Minute, Second, Nanosecond; lia).
      rewrite List.filter_app in IH. simpl in IH. rewrite Hn in IH.
      specialize (IH ltac:(by rewrite Hp)).
      destruct (checks ip rest _) as [vs store2]. cbn [fst snd admittedAt] in *.
      by rewrite IH, <- app_assoc, last_cons.
Qed.

Lemma within_recent T now t :
  within T now = true -> within T t = true -> recent now t = true.
Proof.
  unfold within, rateLimitWindow. rewrite !andb_true_iff, !Z.leb_le, recent_spec. lia.
Qed.

(** No window of one minute ever holds more admitted readings than the
    limit. *)
Lemma checks_bound ip nows T : forall last admitted store,
  ascending last nows ->
  entry ip store = List.filter (recent last) admitted ->
  (length (List.filter (within T) admitted) <= maxRequestsPerMinute)%nat ->
  (length (List.filter (within T)
             (admitted ++ admittedAt nows (checks ip nows store).1))
   <= maxRequestsPerMinute)%nat.
Proof.
  induction nows as [|now rest IH]; intros last admitted store Hasc Hentry Hb.
  - simpl. by rewrite app_nil_r.
  - destruct Hasc as [Hle Hasc].
    assert (Hp : pruned now (entry ip store) = List.filter (recent now) admitted).
    { rewrite pruned_recent, Hentry. apply filter_filter_weaker.
      intros t. by apply recent_mono. }
    cbn [checks].
    destruct (Nat.leb_spec maxRequestsPerMinute
                (length (pruned now (entry ip store)))) as [Hfull|Hroom].
    + rewrite (isRateLimited_denied _ _ _ Hfull).
      specialize (IH now admitted (<[ip := pruned now (entry ip store)]> store) Hasc).
      rewrite entry_insert in IH. specialize (IH Hp Hb).
      by destruct (checks ip rest _) as [vs store2].
    + rewrite (isRateLimited_allowed _ _ _ Hroom).
      specialize (IH now (admitted ++ [now])
                    (<[ip := pruned now (entry ip store) ++ [now]]> store) Hasc).
      rewrite entry_insert in IH.
      assert (Hn : recent now now = true)
        by (apply recent_spec; unfold Minute, Second, Nanosecond; lia).
      rewrite !List.filter_app in IH. simpl in IH. rewrite Hn in IH.
      assert (Hb' : (length (List.filter (within T) admitted
                             ++ (if within T now then [now] else []))
                     <= maxRequestsPerMinute)%nat).
      { destruct (within T now) eqn:Hw; [|by rewrite app_nil_r].
        rewrite length_app. simpl.
        assert ((length (List.filter (within T) admitted)
                 <= length (List.filter (recent now) admitted))%nat).
        { apply filter_length_weaker. intros t. by apply within_recent. }
        rewrite Hp in Hroom. lia. }
      specialize (IH ltac:(by rewrite Hp) Hb').
      destruct (checks ip rest _) as [vs store2]. cbn [fst snd admittedAt] in *.
      rewrite <- app_assoc in IH. rewrite List.filter_app. simpl.
      by destruct (within T now).
Qed.

Lemma checks_snoc ip pre now store :
  (checks ip (pre ++ [now]) store).1
  = (checks ip pre store).1
    ++ [(isRateLimited now ip (checks ip pre store).2).1].
Proof.
  revert store. induction pre as [|p pre IH]; intros store; simpl.
  - by destruct (isRateLimited now ip store).
  - destruct (isRateLimited p ip store) as [v store1].
    specialize (IH store1).
    destruct (checks ip (pre ++ [now]) store1) as [vs store2].
    destruct (checks ip pre store1) as [vs' store2']. simpl in *.
    by rewrite IH.
Qed.

Lemma ascending_app last pre now :
  ascending last (pre ++ [now]) ->
  ascending last pre /\ List.last pre last <= now.
Proof.
  revert last. induction pre as [|p pre IH]; intros last; cbn [app ascending].
  - simpl. tauto.
  - intros [H1 H2]. apply IH in H2. destruct H2 as [H2 H3].
    split; [by split|]. by rewrite last_cons.
Qed.

End WindowFacts.

Import RateLimit RateLimitFacts WindowFacts.

(** X1. The guarantee of the limiter.  For a client new to the table
    whose checks are made at readings of a clock that never goes back,
    every window of one minute, wherever it ends, holds at most fifty
    admitted checks. *)
Theorem window_never_exceeded (ip : string) (store : gmap string (list Time))
    (first : Time) (nows : list Time) (T : Time) :
  store !! ip = None ->
  ascending first nows ->
  (length (List.filter (within T) (admittedAt nows (checks ip nows store).1))
   <= maxRequestsPerMinute)%nat.
Proof.
  intros Hnew Hasc.
  apply (checks_bound ip nows T first [] store Hasc).
  - by rewrite (entry_unseen _ _ Hnew).
  - simpl. unfold maxRequestsPerMinute. lia.
Qed.

(** Seventy checks at one per second, from the second second on. *)
Definition everySecond : list Time := map (fun n => Z.of_nat n * Second) (seq 2 70).

Lemma window_never_exceeded_witness :
  (length (List.filter (within (71 * Second)%Z)
             (admittedAt everySecond (checks "10.0.0.7" everySecond ∅).1))
   <= maxRequestsPerMinute)%nat.
Proof.
  apply (window_never_exceeded "10.0.0.7" ∅ 0 everySecond (71 * Second)).
  - reflexivity.
  - vm_compute. repeat split; discriminate.
Defined.

(** X2. The verdict is the count over the trailing window.  Under the
    same conditions a check is denied exactly when fifty or more of the
    client's earlier admitted checks lie within one minute before it;
    denied checks do not count. *)
Theorem verdict_counts_window (ip : string) (store : gmap string (list Time))
    (first : Time) (earlier : list Time) (now : Time) :
  store !! ip = None ->
  ascending first (earlier ++ [now]) ->
  (checks ip (earlier ++ [now]) store).1
  = (checks ip earlier store).1
    ++ [(maxRequestsPerMinute
         <=? length (List.filter (recent now)
                       (admittedAt earlier (checks ip earlier store).1)))%nat].
Proof.
  intros Hnew Hasc. apply ascending_app in Hasc. destruct Hasc as [Hasc Hle].
  rewrite checks_snoc. f_equal. f_equal.
  rewrite isRateLimited_verdict, pruned_recent.
  rewrite (checks_entry ip earlier first [] store Hasc)
    by (by rewrite (entry_unseen _ _ Hnew)).
  rewrite app_nil_l, filter_filter_weaker; [done|].
  intros t. by apply recent_mono.
Qed.

Lemma verdict_counts_window_witness :
  (checks "10.0.0.7" (everySecond ++ [80 * Second]) ∅).1
  = (checks "10.0.0.7" everySecond ∅).1
    ++ [(maxRequestsPerMinute
         <=? length (List.filter (recent (80 * Second)%Z)
                       (admittedAt everySecond
                          (checks "10.0.0.7" everySecond ∅).1)))%nat].
Proof.
  apply (verdict_counts_window "10.0.0.7" ∅ 0 everySecond (80 * Second)).
  - reflexivity.
  - vm_compute. repeat split; discriminate.
Defined.


(** ** The table as a whole *)

Module TableFacts.

Import RateLimit RateLimitFacts.

Lemma isRateLimited_store now ip store :
  (isRateLimited now ip store).2
  = <[ip := entry ip (isRateLimited now ip store).2]> store.
Proof.
  unfold isRateLimited.
  destruct (maxRequestsPerMinute <=? _)%nat; cbn [snd];
    by rewrite ?entry_insert, ?insert_insert_eq.
Qed.

Lemma isRateLimited_entry_ext now ip store store' :
  entry ip store = entry ip store' ->
  (isRateLimited now ip store).1 = (isRateLimited now ip store').1
  /\ entry ip (isRateLimited now ip store).2
     = entry ip (isRateLimited now ip store').2.
Proof.
  intros H. unfold isRateLimited. rewrite H.
  destruct (maxRequestsPerMinute <=? _)%nat; cbn [fst snd];
    by rewrite ?entry_insert.
Qed.

End TableFacts.

Import RateLimit RateLimitFacts TableFacts.

(** X3. Clients do not interfere.  A check for one client leaves every
    other client's entry as it is, and the checks of two different
    clients commute: in either order both get the same verdicts and the
    table ends up the same. *)
Theorem clients_commute (now1 now2 : Time) (ip1 ip2 : string)
    (store : gmap string (list Time)) :
  ip1 <> ip2 ->
  let first1 := isRateLimited now1 ip1 store in
  let then2 := isRateLimited now2 ip2 first1.2 in
  let first2 := isRateLimited now2 ip2 store in
  let then1 := isRateLimited now1 ip1 first2.2 in
  entry ip2 first1.2 = entry ip2 store
  /\ first1.1 = then1.1
  /\ first2.1 = then2.1
  /\ then2.2 = then1.2.
Proof.
  intros Hne. cbv zeta.
  assert (H21 : entry ip2 (isRateLimited now1 ip1 store).2 = entry ip2 store)
    by (by apply isRateLimited_frame).
  assert (H12 : entry ip1 (isRateLimited now2 ip2 store).2 = entry ip1 store)
    by (by apply isRateLimited_frame).
  destruct (isRateLimited_entry_ext now2 ip2 _ _ H21) as [Hv2 He2].
  destruct (isRateLimited_entry_ext now1 ip1 _ _ H12) as [Hv1 He1].
  repeat split; try done.
  rewrite (isRateLimited_store now2 ip2 (isRateLimited now1 ip1 store).2).
  rewrite (isRateLimited_store now1 ip1 (isRateLimited now2 ip2 store).2).
  rewrite He2, He1.
  rewrite (isRateLimited_store now1 ip1 store) at 1.
  rewrite (isRateLimited_store now2 ip2 store) at 2.
  by apply insert_insert_ne.
Qed.

Lemma clients_commute_witness :
  let store : gmap string (list Time) := {[ "10.0.0.7" := [1; 2; 3] ]} in
  let first1 := isRateLimited 10 "10.0.0.7" store in
  let then2 := isRateLimited 11 "10.0.0.8" first1.2 in
  let first2 := isRateLimited 11 "10.0.0.8" store in
  let then1 := isRateLimited 10 "10.0.0.7" first2.2 in
  entry "10.0.0.8" first1.2 = entry "10.0.0.8" store
  /\ first1.1 = then1.1
  /\ first2.1 = then2.1
  /\ then2.2 = then1.2.
Proof.
  apply (clients_commute 10 11 "10.0.0.7" "10.0.0.8" {[ "10.0.0.7" := [1; 2; 3] ]}).
  discriminate.
Defined.

(** X4. The table only grows in keys and stays bounded per key.  Every
    check, denied ones included, leaves a key for its client and removes
    no key; an entry that held at most fifty timestamps holds at most
    fifty afterwards, and never more than one more than before. *)
Theorem table_growth (now : Time) (ip : string) (store : gmap string (list Time)) :
  dom (isRateLimited now ip store).2 = {[ ip ]} ∪ dom store
  /\ ((length (entry ip store) <= maxRequestsPerMinute)%nat ->
      (length (entry ip (isRateLimited now ip store).2) <= maxRequestsPerMinute)%nat)
  /\ (length (entry ip (isRateLimited now ip store).2)
      <= S (length (entry ip store)))%nat.
Proof.
  split; [|split].
  - rewrite isRateLimited_store. apply dom_insert_L.
  - intros Hle. unfold isRateLimited.
    destruct (Nat.leb_spec maxRequestsPerMinute
                (length (pruned now (entry ip store)))) as [Hfull|Hroom];
      cbn [snd]; rewrite !entry_insert.
    + pose proof (pruned_length now (entry ip store)). lia.
    + rewrite length_app. simpl. lia.
  - unfold isRateLimited.
    destruct (maxRequestsPerMinute <=? _)%nat; cbn [snd]; rewrite !entry_insert;
      pose proof (pruned_length now (entry ip store));
      rewrite ?length_app; simpl; lia.
Qed.

(** ** More on the sanitizer *)

Module SanitizerAlgebra.

Import Regexp Sanitizer BytesFacts SanitizerFacts NetFacts.

Lemma replaceAll_app re a b :
  replaceAll re (a ++ b) [] = replaceAll re a [] ++ replaceAll re b [].
Proof. rewrite !replaceAll_nil. apply List.filter_app. Qed.

Lemma filter_idem {A} (f : A -> bool) (l : list A) :
  List.filter f (List.filter f l) = List.filter f l.
Proof.
  induction l as [|x l IH]; simpl; [done|].
  destruct (f x) eqn:E; simpl; [rewrite E|]; by rewrite IH.
Qed.

Lemma filter_id_iff {A} (f : A -> bool) (l : list A) :
  List.filter f l = l <-> forallb f l = true.
Proof.
  induction l as [|x l IH]; simpl; [done|].
  destruct (f x) eqn:E; simpl.
  - rewrite <- IH. split; [by intros [= ->]|by intros ->].
  - split; [|done]. intros H.
    assert (Hlen : (length (List.filter f l) <= length l)%nat)
      by apply List.filter_length_le.
    rewrite H in Hlen. simpl in Hlen. lia.
Qed.

(** The algebra of [sanitizeWith]: it distributes over concatenation, is
    idempotent, never lengthens, and keeps exactly the strings free of
    matches. *)
Lemma sanitizeWith_algebra re a b :
  sanitizeWith re (a +:+ b) = sanitizeWith re a +:+ sanitizeWith re b
  /\ sanitizeWith re (sanitizeWith re a) = sanitizeWith re a
  /\ (String.length (sanitizeWith re a) <= String.length a)%nat
  /\ (sanitizeWith re a = a
      <-> forallb (fun c => negb (MatchByte re c)) (bytes a) = true).
Proof.
  unfold sanitizeWith, ReplaceAllString. change (bytes "") with (@nil ascii).
  split; [|split; [|split]].
  - by rewrite bytes_app, replaceAll_app, str_app.
  - by rewrite bytes_str, !replaceAll_nil, filter_idem.
  - rewrite replaceAll_nil.
    rewrite <- (str_bytes a) at 2.
    assert (Hl : forall l, String.length (str l) = length l)
      by (induction l as [|c l IH]; simpl; [done|by rewrite IH]).
    rewrite !Hl. apply List.filter_length_le.
  - rewrite replaceAll_nil, <- filter_id_iff. split.
    + intros H. rewrite <- H at 2. by rewrite bytes_str.
    + intros H. by rewrite H, str_bytes.
Qed.

End SanitizerAlgebra.

Import Regexp Sanitizer BytesFacts SanitizerFacts SanitizerAlgebra.

(** X5. The sanitizer of [part_000] distributes over concatenation (what
    it removes from a string does not depend on the context), is
    idempotent (sanitizing a sanitized query changes nothing), never
    lengthens its input, and returns its input unchanged exactly when the
    input holds none of [; & * + # = < > -]. *)
Theorem sanitize_algebra (a b : string) :
  Limited.sanitizeGraphQLQuery (a +:+ b)
  = Limited.sanitizeGraphQLQuery a +:+ Limited.sanitizeGraphQLQuery b
  /\ Limited.sanitizeGraphQLQuery (Limited.sanitizeGraphQLQuery a)
     = Limited.sanitizeGraphQLQuery a
  /\ (String.length (Limited.sanitizeGraphQLQuery a) <= String.length a)%nat
  /\ (Limited.sanitizeGraphQLQuery a = a
      <-> forall c, In c (bytes a) -> ~ In c denylist).
Proof.
  destruct (sanitizeWith_algebra dangerousChars a b) as (H1 & H2 & H3 & H4).
  repeat split; try done.
  - intros H c Hc. apply H4 in H. rewrite forallb_forall in H.
    specialize (H c Hc). rewrite dangerousChars_denylist in H.
    apply negb_true_iff in H. by apply occurs_false.
  - intros H. apply H4. apply forallb_forall. intros c Hc.
    rewrite dangerousChars_denylist. apply negb_true_iff, occurs_false. auto.
Qed.

(** X6. The two variants compared.  The sanitizer of [main.go] removes
    only [;]; what the sanitizer of [part_000] returns is left unchanged
    by it, and sanitizing with [main.go]'s first and [part_000]'s after
    gives what [part_000]'s gives alone. *)
Theorem sanitizers_nested (q : string) :
  Basic.sanitizeGraphQLQuery (Limited.sanitizeGraphQLQuery q)
  = Limited.sanitizeGraphQLQuery q
  /\ Limited.sanitizeGraphQLQuery (Basic.sanitizeGraphQLQuery q)
     = Limited.sanitizeGraphQLQuery q
  /\ (String.length (Limited.sanitizeGraphQLQuery q)
      <= String.length (Basic.sanitizeGraphQLQuery q))%nat.
Proof.
  assert (Hsub : forall c, MatchByte dangerousCharsBasic c = true ->
                           MatchByte dangerousChars c = true).
  { intros c. rewrite dangerousChars_denylist, dangerousCharsBasic_denylist.
    rewrite !occurs_true. simpl. tauto. }
  unfold Basic.sanitizeGraphQLQuery, Limited.sanitizeGraphQLQuery,
    sanitizeWith, ReplaceAllString.
  change (bytes "") with (@nil ascii). rewrite !bytes_str, !replaceAll_nil.
  assert (Hl : forall l, String.length (str l) = length l)
    by (induction l as [|c l IH]; simpl; [done|by rewrite IH]).
  split; [|split].
  - f_equal. induction (bytes q) as [|c l IH]; simpl; [done|].
    destruct (MatchByte dangerousChars c) eqn:E; simpl; [done|].
    destruct (MatchByte dangerousCharsBasic c) eqn:E'; simpl.
    + apply Hsub in E'. congruence.
    + by rewrite IH.
  - f_equal. induction (bytes q) as [|c l IH]; simpl; [done|].
    destruct (MatchByte dangerousCharsBasic c) eqn:E'; simpl.
    + apply Hsub in E'. by rewrite E'.
    + destruct (MatchByte dangerousChars c); simpl; by rewrite IH.
  - rewrite !Hl. induction (bytes q) as [|c l IH]; simpl; [done|].
    destruct (MatchByte dangerousCharsBasic c) eqn:E'; simpl.
    + apply Hsub in E'. by rewrite E'.
    + destruct (MatchByte dangerousChars c); simpl; lia.
Qed.

(** ** The handler's terminal answers *)

Module AnswerFacts.

Import JSON HTTP Pipeline PipelineFacts.

(** The headers of an [http.Error] answer written over the origin
    policy's. *)
Lemma Error_policy_headers error code :
  wHeader (Error error code (Limited.setOriginPolicy newResponseWriter))
  = {[ "Access-Control-Allow-Origin" := ["http://localhost:3000"];
       "Access-Control-Allow-Methods" := ["POST, OPTIONS"];
       "Access-Control-Allow-Headers" := ["Content-Type, Authorization"];
       "Content-Type" := ["text/plain; charset=utf-8"];
       "X-Content-Type-Options" := ["nosniff"] ]}.
Proof.
  unfold Error, Write_, WriteHeader, withHeader. cbn [wHeader].
  rewrite policy_headers. unfold Set_, Del.
  change (CanonicalMIMEHeaderKey "Content-Length") with "Content-Length".
  change (CanonicalMIMEHeaderKey "Content-Type") with "Content-Type".
  change (CanonicalMIMEHeaderKey "X-Content-Type-Options")
    with "X-Content-Type-Options".
  apply map_eq. intros k.
  rewrite !lookup_insert, lookup_delete, !lookup_insert, !lookup_singleton.
  repeat case_decide; subst; try done.
Qed.

Lemma Error_status_body error code w :
  wStatus w = None -> wBody w = "" ->
  wStatus (Error error code w) = Some code
  /\ wBody (Error error code w) = error +:+ str ["010"%char].
Proof.
  intros Hs Hb. unfold Error, Write_, WriteHeader, withHeader.
  cbn [wStatus wBody]. by rewrite Hs, Hb.
Qed.

Lemma Error_plain_headers error code :
  wHeader (Error error code newResponseWriter)
  = {[ "Content-Type" := ["text/plain; charset=utf-8"];
       "X-Content-Type-Options" := ["nosniff"] ]}.
Proof.
  unfold Error, Write_, WriteHeader, withHeader, newResponseWriter.
  cbn [wHeader]. unfold Set_, Del.
  change (CanonicalMIMEHeaderKey "Content-Length") with "Content-Length".
  change (CanonicalMIMEHeaderKey "Content-Type") with "Content-Type".
  change (CanonicalMIMEHeaderKey "X-Content-Type-Options")
    with "X-Content-Type-Options".
  apply map_eq. intros k.
  rewrite !lookup_insert, lookup_delete, lookup_empty, lookup_singleton.
  repeat case_decide; subst; try done.
Qed.

End AnswerFacts.

Import JSON HTTP Pipeline PipelineFacts AnswerFacts Samples.

(** X7. The route gate of [part_000].  A request that is not a preflight
    and is not [POST /public] - another method, or another path, compared
    exactly - is answered 404 with the body [Not Found] and a newline, as
    plain text, next to the origin policy's three headers.  Nothing else
    happens: the table, the audit calls and the proxy are left alone,
    whatever the upstream and the clock. *)
Theorem route_gate_not_found (upstream : Request -> RoundTrip) (now : Time)
    (r : Request) (world : World) :
  Method r <> "OPTIONS" ->
  Method r <> "POST" \/ Path r <> "/public" ->
  let '(w, world') := Limited.graphqlMiddleware upstream now r world in
  wStatus w = Some 404
  /\ wBody w = "Not Found" +:+ str ["010"%char]
  /\ wHeader w
     = {[ "Access-Control-Allow-Origin" := ["http://localhost:3000"];
          "Access-Control-Allow-Methods" := ["POST, OPTIONS"];
          "Access-Control-Allow-Headers" := ["Content-Type, Authorization"];
          "Content-Type" := ["text/plain; charset=utf-8"];
          "X-Content-Type-Options" := ["nosniff"] ]}
  /\ world' = world
  /\ (forall upstream' now',
        Limited.graphqlMiddleware upstream' now' r world = (w, world)).
Proof.
  intros Hopt Hroute.
  assert (H1 : String.eqb (Method r) MethodOptions = false)
    by (by apply String.eqb_neq).
  assert (H2 : routed r = false).
  { unfold routed. apply andb_false_iff.
    destruct Hroute as [H|H]; [left|right]; by apply String.eqb_neq. }
  rewrite (Limited_not_found _ _ _ _ H1 H2).
  split; [done|]. split; [done|]. split; [apply Error_policy_headers|].
  split; [done|]. intros upstream' now'. by apply Limited_not_found.
Qed.

Definition getPublic : Request :=
  {| Method := "GET"; Path := "/public"; Header := ∅; Body := None;
     ContentLength := 0; RemoteAddr := "203.0.113.9:40000" |}.

Lemma route_gate_not_found_witness :
  let '(w, world') := Limited.graphqlMiddleware echo 0 getPublic fresh in
  wStatus w = Some 404
  /\ wBody w = "Not Found" +:+ str ["010"%char]
  /\ wHeader w
     = {[ "Access-Control-Allow-Origin" := ["http://localhost:3000"];
          "Access-Control-Allow-Methods" := ["POST, OPTIONS"];
          "Access-Control-Allow-Headers" := ["Content-Type, Authorization"];
          "Content-Type" := ["text/plain; charset=utf-8"];
          "X-Content-Type-Options" := ["nosniff"] ]}
  /\ world' = fresh
  /\ (forall upstream' now',
        Limited.graphqlMiddleware upstream' now' getPublic fresh = (w, fresh)).
Proof.
  apply (route_gate_not_found echo 0 getPublic fresh).
  - discriminate.
  - left. discriminate.
Defined.

(** X8. The answer to a denied request.  When the limiter denies a routed
    request the answer is 429 with the body [Rate limit exceeded] and a
    newline, as plain text, next to the policy's headers; no audit call
    is dispatched and nothing is handed to the proxy, whatever the
    upstream and whatever the body.  The client's entry holds the pruned
    timestamps and no new one; other clients' entries are as before. *)
Theorem denied_answer (upstream : Request -> RoundTrip) (now : Time)
    (r : Request) (world : World) :
  routed r = true ->
  (RateLimit.isRateLimited now (Identity.extractClientIP (RemoteAddr r))
     (rateLimitStore world)).1 = true ->
  let '(w, world') := Limited.graphqlMiddleware upstream now r world in
  let ip := Identity.extractClientIP (RemoteAddr r) in
  wStatus w = Some 429
  /\ wBody w = "Rate limit exceeded" +:+ str ["010"%char]
  /\ wHeader w
     = {[ "Access-Control-Allow-Origin" := ["http://localhost:3000"];
          "Access-Control-Allow-Methods" := ["POST, OPTIONS"];
          "Access-Control-Allow-Headers" := ["Content-Type, Authorization"];
          "Content-Type" := ["text/plain; charset=utf-8"];
          "X-Content-Type-Options" := ["nosniff"] ]}
  /\ audits world' = audits world
  /\ forwarded world' = forwarded world
  /\ RateLimit.entry ip (rateLimitStore world')
     = RateLimit.pruned now (RateLimit.entry ip (rateLimitStore world))
  /\ (forall ip', ip' <> ip ->
        RateLimit.entry ip' (rateLimitStore world')
        = RateLimit.entry ip' (rateLimitStore world))
  /\ (forall upstream',
        Limited.graphqlMiddleware upstream' now r world = (w, world')).
Proof.
  intros Hr Hl. rewrite (Limited_limited _ _ _ _ Hr Hl). cbv zeta.
  cbn [rateLimitStore audits forwarded].
  split; [done|]. split; [done|]. split; [apply Error_policy_headers|].
  split; [done|]. split; [done|].
  split; [by apply RateLimitFacts.denied_takes_no_slot|].
  split.
  - intros ip' Hne. by apply RateLimitFacts.isRateLimited_frame.
  - intros upstream'. by apply Limited_limited.
Qed.

(** A table in which the sample client has used its fifty. *)
Definition spent : World :=
  {| rateLimitStore := {[ "127.0.0.1" := map Z.of_nat (seq 1 50) ]};
     audits := []; forwarded := [] |}.

Lemma denied_answer_witness :
  let r := post "[::1]:4242" "{}" in
  let '(w, world') := Limited.graphqlMiddleware echo 60 r spent in
  let ip := Identity.extractClientIP (RemoteAddr r) in
  wStatus w = Some 429
  /\ wBody w = "Rate limit exceeded" +:+ str ["010"%char]
  /\ wHeader w
     = {[ "Access-Control-Allow-Origin" := ["http://localhost:3000"];
          "Access-Control-Allow-Methods" := ["POST, OPTIONS"];
          "Access-Control-Allow-Headers" := ["Content-Type, Authorization"];
          "Content-Type" := ["text/plain; charset=utf-8"];
          "X-Content-Type-Options" := ["nosniff"] ]}
  /\ audits world' = audits spent
  /\ forwarded world' = forwarded spent
  /\ RateLimit.entry ip (rateLimitStore world')
     = RateLimit.pruned 60 (RateLimit.entry ip (rateLimitStore spent))
  /\ (forall ip', ip' <> ip ->
        RateLimit.entry ip' (rateLimitStore world')
        = RateLimit.entry ip' (rateLimitStore spent))
  /\ (forall upstream',
        Limited.graphqlMiddleware upstream' 60 r spent = (w, world')).
Proof.
  apply (denied_answer echo 60 (post "[::1]:4242" "{}") spent).
  - reflexivity.
  - vm_compute. reflexivity.
Defined.

Import JSON HTTP Pipeline PipelineFacts AnswerFacts JSONFacts RewriteFacts Samples.
Import BytesFacts SanitizerFacts.

(** X9. Audit and forwarding agree on the query.  For an admitted request
    whose body is an object with a string [query]: the audit call carries
    the client identity, the query as received and the sanitized query;
    the payload that is re-encoded and forwarded holds that same
    sanitized string under [query]; it contains none of the denylist
    characters, and it differs from the received query exactly when the
    received query contained one. *)
Theorem audit_matches_forwarded (upstream : Request -> RoundTrip)
    (now : Time) (r : Request) (world : World)
    (m : list (string * Value)) (q : string) :
  routed r = true ->
  (RateLimit.isRateLimited now (Identity.extractClientIP (RemoteAddr r))
     (rateLimitStore world)).1 = false ->
  Unmarshal (readBody r) = Some m ->
  lookup "query" m = Some (VString q) ->
  let world' := (Limited.graphqlMiddleware upstream now r world).2 in
  let cleaned := Limited.sanitizeGraphQLQuery q in
  let m' := assign "query" (VString cleaned) m in
  audits world'
  = audits world
    ++ [{| auditIP := Identity.extractClientIP (RemoteAddr r);
           auditRaw := q; auditSanitized := cleaned |}]
  /\ forwarded world' = forwarded world ++ [withBody r (newBody (Some m'))]
  /\ lookup "query" m' = Some (VString cleaned)
  /\ (forall c, In c (bytes cleaned) -> ~ In c Sanitizer.denylist)
  /\ (cleaned <> q <-> exists c, In c (bytes q) /\ In c Sanitizer.denylist).
Proof.
  intros Hr Hl Hm Hq. cbv zeta.
  rewrite (Limited_forwarded _ _ _ _ Hr Hl). cbn [snd audits forwarded].
  unfold auditOf, outbound. rewrite (rewrite_query _ _ _ _ Hm Hq). cbn [fst snd].
  split; [done|]. split; [done|]. split; [apply lookup_assign_eq|].
  destruct (sanitizeWith_removes _ _ dangerousChars_denylist q) as (Hf & Hnone & _).
  split.
  - intros c Hc. rewrite Forall_forall in Hnone. apply Hnone.
    by apply list_elem_of_In.
  - destruct (SanitizerAlgebra.sanitizeWith_algebra Sanitizer.dangerousChars q "")
      as (_ & _ & _ & Hfix).
    fold (Limited.sanitizeGraphQLQuery q) in Hfix. split.
    + intros Hne.
      destruct (forallb (fun c => negb (Regexp.MatchByte Sanitizer.dangerousChars c))
                  (bytes q)) eqn:E.
      * destruct Hne. by apply Hfix.
      * assert (Hex : existsb (fun c => Regexp.MatchByte Sanitizer.dangerousChars c)
                        (bytes q) = true).
        { clear -E. induction (bytes q) as [|c l IH]; simpl in *; [done|].
          destruct (Regexp.MatchByte Sanitizer.dangerousChars c); simpl in *; auto. }
        apply existsb_exists in Hex. destruct Hex as (c & Hc & Hmatch).
        exists c. split; [done|].
        rewrite dangerousChars_denylist in Hmatch. by apply occurs_true.
    + intros (c & Hc & Hd) Heq. apply Hfix in Heq.
      rewrite forallb_forall in Heq. specialize (Heq c Hc).
      rewrite dangerousChars_denylist in Heq. apply negb_true_iff in Heq.
      apply occurs_false in Heq. done.
Qed.

Lemma audit_matches_forwarded_witness :
  let r := post "198.51.100.4:5000" withVariables in
  let m := default [] (Unmarshal withVariables) in
  let q := "{ user(id: $id) { name; } }" in
  let world' := (Limited.graphqlMiddleware echo 9 r fresh).2 in
  let cleaned := Limited.sanitizeGraphQLQuery q in
  let m' := assign "query" (VString cleaned) m in
  audits world'
  = audits fresh
    ++ [{| auditIP := Identity.extractClientIP (RemoteAddr r);
           auditRaw := q; auditSanitized := cleaned |}]
  /\ forwarded world' = forwarded fresh ++ [withBody r (newBody (Some m'))]
  /\ lookup "query" m' = Some (VString cleaned)
  /\ (forall c, In c (bytes cleaned) -> ~ In c Sanitizer.denylist)
  /\ (cleaned <> q <-> exists c, In c (bytes q) /\ In c Sanitizer.denylist).
Proof.
  apply (audit_matches_forwarded echo 9 (post "198.51.100.4:5000" withVariables)
           fresh (default [] (Unmarshal withVariables))
           "{ user(id: $id) { name; } }").
  - reflexivity.
  - vm_compute. reflexivity.
  - vm_compute. reflexivity.
  - vm_compute. reflexivity.
Defined.

(** X10. A failed round trip.  When the limiter admits a routed request
    and the upstream cannot be reached, the caller gets 502 with an empty
    body and the policy's three headers only.  The request has all the
    same been handed to the proxy, its audit call has been dispatched,
    and its timestamp is on record: a request that fails upstream still
    takes a slot of the client's fifty. *)
Theorem upstream_failure (upstream : Request -> RoundTrip) (now : Time)
    (r : Request) (world : World) :
  routed r = true ->
  (RateLimit.isRateLimited now (Identity.extractClientIP (RemoteAddr r))
     (rateLimitStore world)).1 = false ->
  upstream (outbound Limited.sanitizeGraphQLQuery r)
  = {| Got1xx := []; Result := None |} ->
  let '(w, world') := Limited.graphqlMiddleware upstream now r world in
  let ip := Identity.extractClientIP (RemoteAddr r) in
  wStatus w = Some 502
  /\ wBody w = ""
  /\ wHeader w
     = {[ "Access-Control-Allow-Origin" := ["http://localhost:3000"];
          "Access-Control-Allow-Methods" := ["POST, OPTIONS"];
          "Access-Control-Allow-Headers" := ["Content-Type, Authorization"] ]}
  /\ length (audits world') = S (length (audits world))
  /\ forwarded world'
     = forwarded world ++ [outbound Limited.sanitizeGraphQLQuery r]
  /\ RateLimit.entry ip (rateLimitStore world')
     = RateLimit.pruned now (RateLimit.entry ip (rateLimitStore world)) ++ [now].
Proof.
  intros Hr Hl Hup. rewrite (Limited_forwarded _ _ _ _ Hr Hl). cbv zeta.
  cbn [rateLimitStore audits forwarded].
  unfold ServeHTTP. rewrite Hup. cbn [Got1xx Result fold_left].
  unfold WriteHeader. cbn [wStatus wBody wHeader].
  split; [done|]. split; [done|]. split; [apply policy_headers|].
  split; [rewrite length_app; simpl; lia|]. split; [done|].
  rewrite RateLimitFacts.isRateLimited_allowed.
  - cbn [snd]. apply RateLimitFacts.entry_insert.
  - rewrite RateLimitFacts.isRateLimited_verdict in Hl.
    by apply Nat.leb_gt in Hl.
Qed.

Definition down (r : Request) : RoundTrip := {| Got1xx := []; Result := None |}.

Lemma upstream_failure_witness :
  let r := post "[::1]:4242" "{}" in
  let '(w, world') := Limited.graphqlMiddleware down 5 r fresh in
  let ip := Identity.extractClientIP (RemoteAddr r) in
  wStatus w = Some 502
  /\ wBody w = ""
  /\ wHeader w
     = {[ "Access-Control-Allow-Origin" := ["http://localhost:3000"];
          "Access-Control-Allow-Methods" := ["POST, OPTIONS"];
          "Access-Control-Allow-Headers" := ["Content-Type, Authorization"] ]}
  /\ length (audits world') = S (length (audits fresh))
  /\ forwarded world'
     = forwarded fresh ++ [outbound Limited.sanitizeGraphQLQuery r]
  /\ RateLimit.entry ip (rateLimitStore world')
     = RateLimit.pruned 5 (RateLimit.entry ip (rateLimitStore fresh)) ++ [5].
Proof.
  apply (upstream_failure down 5 (post "[::1]:4242" "{}") fresh).
  - reflexivity.
  - vm_compute. reflexivity.
  - reflexivity.
Defined.

Import JSON HTTP Pipeline PipelineFacts AnswerFacts JSONFacts RewriteFacts Samples.

(** ** The variant of [main.go] *)

Module BasicFacts.

Lemma copyHeader_empty (h : gmap string (list string)) : copyHeader ∅ h = h.
Proof.
  apply map_eq. intros k. unfold copyHeader.
  rewrite lookup_union_with, lookup_empty. by destruct (h !! k).
Qed.

End BasicFacts.

Import BasicFacts.


(** ** Requests served one after another *)

Module Server.

Import JSON HTTP Pipeline PipelineFacts.

(** The handler of [part_000] on a sequence of requests, each with the
    clock reading of its admission check, none overlapping another. *)
Fixpoint serve (upstream : Request -> RoundTrip)
    (reqs : list (Time * Request)) (world : World)
  : list ResponseWriter * World :=
  match reqs with
  | [] => ([], world)
  | (now, r) :: rest =>
      let '(w, world1) := Limited.graphqlMiddleware upstream now r world in
      let '(ws, world2) := serve upstream rest world1 in
      (w :: ws, world2)
  end.

(** One admission check charged to a table. *)
Definition charge (store : gmap string (list Time)) (c : Time * string)
  : gmap string (list Time) :=
  (RateLimit.isRateLimited c.1 c.2 store).2.

(** The checks a sequence of requests is charged: one per [POST /public],
    under the identity of its remote address. *)
Definition charges (reqs : list (Time * Request)) : list (Time * string) :=
  map (fun nr => (nr.1, Identity.extractClientIP (RemoteAddr nr.2)))
    (List.filter (fun nr => routed nr.2) reqs).

(** The two answers behind the route gate. *)
Definition tooMany : ResponseWriter :=
  Error "Rate limit exceeded" StatusTooManyRequests
    (Limited.setOriginPolicy newResponseWriter).

Definition relayed (upstream : Request -> RoundTrip) (r : Request)
  : ResponseWriter :=
  ServeHTTP upstream Limited.ModifyResponse
    (Limited.setOriginPolicy newResponseWriter)
    (outbound Limited.sanitizeGraphQLQuery r).

Lemma handler_store upstream now r world :
  rateLimitStore (Limited.graphqlMiddleware upstream now r world).2
  = if routed r
    then charge (rateLimitStore world)
           (now, Identity.extractClientIP (RemoteAddr r))
    else rateLimitStore world.
Proof.
  destruct (routed r) eqn:Hr.
  - unfold charge. cbn [fst snd].
    destruct (RateLimit.isRateLimited now
                (Identity.extractClientIP (RemoteAddr r))
                (rateLimitStore world)).1 eqn:Hl.
    + by rewrite (Limited_limited _ _ _ _ Hr Hl).
    + by rewrite (Limited_forwarded _ _ _ _ Hr Hl).
  - destruct (String.eqb (Method r) MethodOptions) eqn:Ho.
    + apply String.eqb_eq in Ho. by rewrite (Limited_preflight _ _ _ _ Ho).
    + by rewrite (Limited_not_found _ _ _ _ Ho Hr).
Qed.

Lemma handler_effects upstream now r world :
  let world' := (Limited.graphqlMiddleware upstream now r world).2 in
  exists k,
    length (audits world') = (length (audits world) + k)%nat
    /\ length (forwarded world') = (length (forwarded world) + k)%nat.
Proof.
  cbv zeta. destruct (routed r) eqn:Hr.
  - destruct (RateLimit.isRateLimited now
                (Identity.extractClientIP (RemoteAddr r))
                (rateLimitStore world)).1 eqn:Hl.
    + rewrite (Limited_limited _ _ _ _ Hr Hl). exists O. simpl. lia.
    + rewrite (Limited_forwarded _ _ _ _ Hr Hl). exists 1%nat.
      cbn [snd audits forwarded]. by rewrite !length_app.
  - destruct (String.eqb (Method r) MethodOptions) eqn:Ho.
    + apply String.eqb_eq in Ho. rewrite (Limited_preflight _ _ _ _ Ho).
      exists O. simpl. lia.
    + rewrite (Limited_not_found _ _ _ _ Ho Hr). exists O. simpl. lia.
Qed.

End Server.

Import JSON HTTP Pipeline PipelineFacts Server Samples.

(** X12. What a sequence of requests costs.  Served one after another,
    the requests leave the table as the admission checks of the
    [POST /public] requests among them leave it, one check each under the
    identity of its remote address and at its clock reading - whatever
    the body holds and whatever the upstream answers.  Preflights and
    requests the route gate turns away are not charged.  There is one
    answer per request, and audit calls and forwarded requests grow by
    the same number. *)
Theorem serve_accounting (upstream : Request -> RoundTrip)
    (reqs : list (Time * Request)) (world : World) :
  let '(ws, world') := serve upstream reqs world in
  rateLimitStore world' = fold_left charge (charges reqs) (rateLimitStore world)
  /\ length ws = length reqs
  /\ (exists k,
        length (audits world') = (length (audits world) + k)%nat
        /\ length (forwarded world') = (length (forwarded world) + k)%nat
        /\ (k <= length (charges reqs))%nat)
  /\ (forall upstream',
        rateLimitStore (serve upstream' reqs world).2 = rateLimitStore world').
Proof.
  assert (Hstore : forall up rs w,
    rateLimitStore (serve up rs w).2
    = fold_left charge (charges rs) (rateLimitStore w)).
  { intros up rs. induction rs as [|[now r] rest IH]; intros w; [done|].
    cbn [serve].
    pose proof (handler_store up now r w) as Hs.
    destruct (Limited.graphqlMiddleware up now r w) as [w1 world1].
    specialize (IH world1).
    destruct (serve up rest world1) as [ws world2]. cbn [snd] in *.
    rewrite IH, Hs. unfold charges. cbn [List.filter fst snd].
    by destruct (routed r). }
  pose proof (Hstore upstream reqs world) as Hs.
  assert (Hrest : forall rs w,
    length (serve upstream rs w).1 = length rs
    /\ exists k,
        length (audits (serve upstream rs w).2) = (length (audits w) + k)%nat
        /\ length (forwarded (serve upstream rs w).2)
           = (length (forwarded w) + k)%nat
        /\ (k <= length (charges rs))%nat).
  { induction rs as [|[now r] rest IH]; intros w.
    - split; [done|]. exists O. simpl. lia.
    - cbn [serve].
      pose proof (handler_effects upstream now r w) as (k1 & Ha & Hf).
      assert (Hk1 : (k1 <= if routed r then 1 else 0)%nat).
      { clear IH. revert Ha. destruct (routed r) eqn:Hr.
        - destruct (RateLimit.isRateLimited now
                      (Identity.extractClientIP (RemoteAddr r))
                      (rateLimitStore w)).1 eqn:Hl.
          + rewrite (Limited_limited _ _ _ _ Hr Hl). simpl. lia.
          + rewrite (Limited_forwarded _ _ _ _ Hr Hl).
            cbn [snd audits]. rewrite length_app. simpl. lia.
        - destruct (String.eqb (Method r) MethodOptions) eqn:Ho.
          + apply String.eqb_eq in Ho. rewrite (Limited_preflight _ _ _ _ Ho).
            simpl. lia.
          + rewrite (Limited_not_found _ _ _ _ Ho Hr). simpl. lia. }
      destruct (Limited.graphqlMiddleware upstream now r w) as [w1 world1].
      destruct (IH world1) as (Hlen & k2 & Ha2 & Hf2 & Hk2).
      destruct (serve upstream rest world1) as [ws world2]. cbn [fst snd] in *.
      split; [simpl; by rewrite Hlen|]. exists (k1 + k2)%nat.
      unfold charges in *. cbn [List.filter snd].
      destruct (routed r); cbn [map length]; lia. }
  destruct (Hrest reqs world) as (Hlen & Hk).
  destruct (serve upstream reqs world) as [ws world'] eqn:E. cbn [fst snd] in *.
  split; [done|]. split; [done|]. split; [done|].
  intros upstream'. by rewrite Hstore, Hs.
Qed.

Module BurstFacts.

Import JSON HTTP Pipeline PipelineFacts Server RateLimit RateLimitFacts.

(** A [POST /public] of the client [ip]. *)
Definition from (ip : string) (nr : Time * Request) : Prop :=
  routed nr.2 = true /\ Identity.extractClientIP (RemoteAddr nr.2) = ip.

Definition answer (upstream : Request -> RoundTrip) (limited : bool)
    (nr : Time * Request) : ResponseWriter :=
  if limited then tooMany else relayed upstream nr.2.

(** The requests that were handed on, given the verdicts. *)
Fixpoint handedOn (verdicts : list bool) (reqs : list (Time * Request))
  : list Request :=
  match verdicts, reqs with
  | limited :: verdicts', nr :: reqs' =>
      if limited then handedOn verdicts' reqs'
      else outbound Limited.sanitizeGraphQLQuery nr.2 :: handedOn verdicts' reqs'
  | _, _ => []
  end.

Lemma checks_cons ip now rest store :
  checks ip (now :: rest) store
  = ((isRateLimited now ip store).1
       :: (checks ip rest (isRateLimited now ip store).2).1,
     (checks ip rest (isRateLimited now ip store).2).2).
Proof.
  simpl. destruct (isRateLimited now ip store) as [v store1]. simpl.
  by destruct (checks ip rest store1).
Qed.

(** The requests of one client are answered as [checks] decides. *)
Lemma serve_one_client upstream ip reqs : forall world,
  Forall (from ip) reqs ->
  let verdicts := (checks ip (map fst reqs) (rateLimitStore world)).1 in
  (serve upstream reqs world).1 = zip_with (answer upstream) verdicts reqs
  /\ forwarded (serve upstream reqs world).2
     = forwarded world ++ handedOn verdicts reqs
  /\ length (audits (serve upstream reqs world).2)
     = (length (audits world) + length (handedOn verdicts reqs))%nat.
Proof.
  induction reqs as [|[now r] rest IH]; intros world Hfrom; cbv zeta.
  - simpl. by rewrite app_nil_r, Nat.add_0_r.
  - inversion Hfrom as [|? ? [Hr Hip] Hrest]; subst. cbn [fst snd] in *.
    cbn [serve map fst]. rewrite checks_cons. cbn [fst snd].
    destruct (isRateLimited now (Identity.extractClientIP (RemoteAddr r))
                (rateLimitStore world)) as [v store1] eqn:Hc.
    assert (Hv : (isRateLimited now (Identity.extractClientIP (RemoteAddr r))
                    (rateLimitStore world)).1 = v) by (by rewrite Hc).
    destruct v.
    + rewrite (Limited_limited _ _ _ _ Hr Hv), Hc. cbn [snd].
      specialize (IH {| rateLimitStore := store1; audits := audits world;
                        forwarded := forwarded world |} Hrest).
      cbv zeta in IH. cbn [rateLimitStore audits forwarded] in IH.
      destruct (serve upstream rest _) as [ws world2].
      destruct (checks _ (map fst rest) store1) as [vs store2].
      cbn [fst snd zip_with handedOn] in *.
      destruct IH as (-> & -> & ->). done.
    + rewrite (Limited_forwarded _ _ _ _ Hr Hv), Hc. cbn [snd].
      specialize (IH {| rateLimitStore := store1;
                        audits := audits world
                          ++ [auditOf Limited.sanitizeGraphQLQuery
                                (Identity.extractClientIP (RemoteAddr r)) r];
                        forwarded := forwarded world
                          ++ [outbound Limited.sanitizeGraphQLQuery r] |} Hrest).
      cbv zeta in IH. cbn [rateLimitStore audits forwarded] in IH.
      destruct (serve upstream rest _) as [ws world2].
      destruct (checks _ (map fst rest) store1) as [vs store2].
      cbn [fst snd zip_with handedOn] in *.
      destruct IH as (-> & -> & ->).
      rewrite <- app_assoc, length_app. simpl. repeat split; lia.
Qed.

Lemma zip_answer_admitted upstream reqs :
  zip_with (answer upstream) (repeat false (length reqs)) reqs
  = map (fun nr => relayed upstream nr.2) reqs.
Proof. induction reqs as [|nr reqs IH]; simpl; [done|by rewrite IH]. Qed.

Lemma zip_answer_denied upstream reqs :
  zip_with (answer upstream) (repeat true (length reqs)) reqs
  = map (fun _ => tooMany) reqs.
Proof. induction reqs as [|nr reqs IH]; simpl; [done|by rewrite IH]. Qed.

Lemma handedOn_admitted reqs :
  handedOn (repeat false (length reqs)) reqs
  = map (fun nr => outbound Limited.sanitizeGraphQLQuery nr.2) reqs.
Proof. induction reqs as [|nr reqs IH]; simpl; [done|by rewrite IH]. Qed.

Lemma handedOn_denied reqs : handedOn (repeat true (length reqs)) reqs = [].
Proof. induction reqs as [|nr reqs IH]; simpl; [done|by rewrite IH]. Qed.

Lemma handedOn_app vs1 vs2 reqs1 reqs2 :
  length vs1 = length reqs1 ->
  handedOn (vs1 ++ vs2) (reqs1 ++ reqs2)
  = handedOn vs1 reqs1 ++ handedOn vs2 reqs2.
Proof.
  revert reqs1. induction vs1 as [|v vs1 IH]; intros [|nr reqs1] Hlen;
    simpl in *; try done.
  destruct v; [|rewrite <- app_comm_cons; f_equal]; apply IH; lia.
Qed.

End BurstFacts.

Import JSON HTTP Pipeline PipelineFacts Server RateLimit RateLimitFacts.
Import BurstFacts ConcurrentFacts Samples.

(** X13. A burst of one client.  When a client new to the table sends
    any number of [POST /public] requests whose checks fall within one
    window, served one after another, the first fifty are handed to the
    proxy and answered with what it relays, and every further one is
    answered 429; exactly the first fifty are forwarded and audited. *)
Theorem burst_of_one_client (upstream : Request -> RoundTrip)
    (ip : string) (reqs : list (Time * Request)) (world : World) :
  rateLimitStore world !! ip = None ->
  Forall (from ip) reqs ->
  Forall (fun now => Forall (inWindow now) (map fst reqs)) (map fst reqs) ->
  let '(ws, world') := serve upstream reqs world in
  ws = map (fun nr => relayed upstream nr.2) (take maxRequestsPerMinute reqs)
       ++ map (fun _ => tooMany) (drop maxRequestsPerMinute reqs)
  /\ forwarded world'
     = forwarded world
       ++ map (fun nr => outbound Limited.sanitizeGraphQLQuery nr.2)
            (take maxRequestsPerMinute reqs)
  /\ length (audits world')
     = (length (audits world) + length (take maxRequestsPerMinute reqs))%nat.
Proof.
  intros Hnew Hfrom Hwin.
  pose proof (serve_one_client upstream ip reqs world Hfrom) as Hs.
  cbv zeta in Hs.
  destruct (serve upstream reqs world) as [ws world']. cbn [fst snd] in Hs.
  set (first := take maxRequestsPerMinute reqs) in *.
  set (rest := drop maxRequestsPerMinute reqs) in *.
  assert (Hreqs : reqs = first ++ rest) by (symmetry; apply take_drop).
  assert (Hlen : (length first <= maxRequestsPerMinute)%nat)
    by (unfold first; rewrite length_take; lia).
  assert (Hrest : rest <> [] -> length first = maxRequestsPerMinute).
  { unfold first, rest. intros Hne. rewrite length_take.
    destruct (Nat.le_gt_cases maxRequestsPerMinute (length reqs)); [lia|].
    destruct Hne. apply drop_ge. lia. }
  assert (Hall : forall a b, a ∈ map fst reqs -> b ∈ map fst reqs -> inWindow a b).
  { intros a b Ha Hb. rewrite Forall_forall in Hwin.
    specialize (Hwin a Ha). rewrite Forall_forall in Hwin. auto. }
  assert (Hv : (checks ip (map fst reqs) (rateLimitStore world)).1
               = repeat false (length first) ++ repeat true (length rest)).
  { rewrite Hreqs, map_app, checks_app in *. cbn [fst].
    destruct (checks_below_limit ip (map fst first) (rateLimitStore world))
      as [Hv1 He1].
    { rewrite (entry_unseen _ _ Hnew). apply Forall_forall. intros; constructor. }
    { apply Forall_forall. intros a Ha. apply Forall_forall. intros b Hb.
      apply Hall; apply elem_of_app; by left. }
    { rewrite (entry_unseen _ _ Hnew), length_map. simpl. lia. }
    rewrite (entry_unseen _ _ Hnew) in He1. simpl in He1.
    rewrite Hv1, length_map. f_equal.
    destruct rest as [|nr rest'] eqn:Erest; [done|].
    destruct (checks_at_limit ip (map fst (nr :: rest'))
                (checks ip (map fst first) (rateLimitStore world)).2) as [Hv2 _].
    { rewrite He1. apply Forall_forall. intros a Ha. apply Forall_forall.
      intros b Hb. apply Hall; apply elem_of_app; [by right|by left]. }
    { rewrite He1, length_map. rewrite Hrest by done. lia. }
    by rewrite Hv2, length_map. }
  rewrite Hv in Hs. destruct Hs as (Hws & Hfw & Hau).
  rewrite Hreqs in Hws, Hfw, Hau.
  rewrite zip_with_app in Hws by (by rewrite repeat_length).
  rewrite zip_answer_admitted, zip_answer_denied in Hws.
  rewrite handedOn_app, handedOn_admitted, handedOn_denied, app_nil_r in Hfw, Hau
    by (by rewrite repeat_length).
  rewrite length_map in Hau. done.
Qed.

(** Fifty-two requests of one client within a second. *)
Definition burst : list (Time * Request) :=
  map (fun n => (Z.of_nat n, post "[::1]:4242" "{}")) (seq 1 52).

Lemma burst_of_one_client_witness :
  let '(ws, world') := serve echo burst fresh in
  ws = map (fun nr => relayed echo nr.2) (take maxRequestsPerMinute burst)
       ++ map (fun _ => tooMany) (drop maxRequestsPerMinute burst)
  /\ forwarded world'
     = forwarded fresh
       ++ map (fun nr => outbound Limited.sanitizeGraphQLQuery nr.2)
            (take maxRequestsPerMinute burst)
  /\ length (audits world')
     = (length (audits fresh) + length (take maxRequestsPerMinute burst))%nat.
Proof.
  apply (burst_of_one_client echo "127.0.0.1" burst fresh).
  - reflexivity.
  - refine (bool_decide_unpack _ _). vm_compute. exact I.
  - refine (bool_decide_unpack _ _). vm_compute. exact I.
Defined.


(** ** Unsynchronised checks, in general *)

Module LostUpdateFacts.

Import RateLimit RateLimitFacts Concurrent ConcurrentFacts.

(** The table after each goroutine in turn has written its pruned copy
    and appended its reading. *)
Definition overwritten (ip : string) (requests : list Time)
    (table : gmap string (list Time)) (nows : list Time)
  : gmap string (list Time) :=
  fold_left (fun s now => <[ip := pruned now requests ++ [now]]> s) nows table.

Lemma run_reads ip nows : forall done table,
  run ip (seq (length done) (length nows))
    {| store := table; goroutines := done ++ map Start nows |}
  = {| store := table;
       goroutines := done ++ map (fun now => Loaded now (entry ip table)) nows |}.
Proof.
  induction nows as [|now rest IH]; intros done table; [reflexivity|].
  cbn [length seq map]. unfold run. cbn [fold_left].
  unfold step at 2. cbn [goroutines store].
  rewrite list_lookup_middle by done.
  rewrite insert_app_r_alt by lia. rewrite Nat.sub_diag. cbn [insert list_insert].
  specialize (IH (done ++ [Loaded now (entry ip table)]) table).
  rewrite length_app in IH. cbn [length] in IH. rewrite Nat.add_1_r in IH.
  rewrite <- !app_assoc in IH. cbn [app] in IH. exact IH.
Qed.

Lemma run_finish ip requests nows : forall done table,
  Forall (fun now => (length (pruned now requests) < maxRequestsPerMinute)%nat) nows ->
  run ip (flat_map (fun i => [i; i]) (seq (length done) (length nows)))
    {| store := table;
       goroutines := done ++ map (fun now => Loaded now requests) nows |}
  = {| store := overwritten ip requests table nows;
       goroutines := done ++ map (fun _ => Returned false) nows |}.
Proof.
  induction nows as [|now rest IH]; intros done table Hshort; [reflexivity|].
  inversion Hshort as [|? ? Hnow Hrest]; subst.
  cbn [length seq map flat_map app]. unfold run. cbn [fold_left].
  unfold step at 3. cbn [goroutines store].
  rewrite list_lookup_middle by done.
  rewrite insert_app_r_alt by lia. rewrite Nat.sub_diag. cbn [insert list_insert].
  unfold step at 2. cbn [goroutines store].
  rewrite list_lookup_middle by done.
  destruct (Nat.leb_spec maxRequestsPerMinute (length (pruned now requests)));
    [lia|].
  cbn [goroutines store].
  rewrite insert_app_r_alt by lia. rewrite Nat.sub_diag. cbn [insert list_insert].
  rewrite entry_insert, insert_insert_eq.
  specialize (IH (done ++ [Returned false])
                (<[ip := pruned now requests ++ [now]]> table) Hrest).
  rewrite length_app in IH. cbn [length] in IH. rewrite Nat.add_1_r in IH.
  rewrite <- !app_assoc in IH. cbn [app] in IH. exact IH.
Qed.

Lemma overwritten_entry ip requests table nows :
  nows <> [] ->
  entry ip (overwritten ip requests table nows)
  = pruned (List.last nows 0) requests ++ [List.last nows 0].
Proof.
  intros Hne. destruct nows as [|now rest]; [done|]. clear Hne.
  revert now table. induction rest as [|next rest IH]; intros now table.
  - cbn. apply entry_insert.
  - change (List.last (now :: next :: rest) 0) with (List.last (next :: rest) 0).
    apply (IH next (<[ip := pruned now requests ++ [now]]> table)).
Qed.

Lemma filter_returned (p : Goroutine -> bool) (nows : list Time) :
  length (List.filter p (map (fun _ : Time => Returned false) nows))
  = if p (Returned false) then length nows else O.
Proof.
  induction nows as [|n l IH]; simpl; [by destruct (p _)|].
  destruct (p (Returned false)) eqn:E; simpl; by rewrite IH.
Qed.

End LostUpdateFacts.

Import RateLimit RateLimitFacts Concurrent ConcurrentFacts LostUpdateFacts.



(** ** Where the origin policy ends up *)

Import JSON HTTP Pipeline PipelineFacts CorsFacts AnswerFacts.


(** ** The window in plain arithmetic *)

Module ClosedFormFacts.

Import RateLimit RateLimitFacts.

(** A timestamp counts at [now] when it is no more than a minute older;
    the comparison is on the exact difference. *)
Definition counts (now t : Time) : bool := now - 60000000000 <=? t.

Lemma recent_counts now t :
  (Sub now t <=? rateLimitWindow) = counts now t.
Proof.
  unfold counts, rateLimitWindow.
  destruct (Z.leb_spec (Sub now t) Minute) as [H|H];
    destruct (Z.leb_spec (now - 60000000000) t) as [H'|H']; try done;
    [apply GoTimeFacts.Sub_le_Minute in H
    |assert (H2 : ~ Sub now t <= Minute) by lia;
     rewrite GoTimeFacts.Sub_le_Minute in H2];
    unfold Minute, Second, Nanosecond in *; lia.
Qed.

Lemma pruned_counts now requests :
  pruned now requests = List.filter (counts now) requests.
Proof.
  rewrite pruned_filter. apply filter_ext. intros t. apply recent_counts.
Qed.

End ClosedFormFacts.

Import RateLimit RateLimitFacts ClosedFormFacts.

(** X16. The admission check in closed form, for any table and any
    clock reading.  The pruning loop keeps, in order, exactly the
    timestamps [t] with [now - t <= 60 s] on the exact difference: the
    clamping of [Sub] never changes what is kept, a timestamp exactly one
    minute old still counts, and so does every timestamp later than [now]
    (a clock that stepped back expires nothing).  The check denies exactly
    when at least 50 timestamps count, and leaves the ones that count,
    followed by [now] when it admits. *)
Theorem window_closed_form (now : Time) (ip : string)
    (store : gmap string (list Time)) :
  let kept := List.filter (counts now) (entry ip store) in
  let '(limited, store') := isRateLimited now ip store in
  limited = (maxRequestsPerMinute <=? length kept)%nat
  /\ entry ip store' = kept ++ (if limited then [] else [now])
  /\ (forall t, In t (entry ip store) -> now - t = 60 * 1000000000 -> In t kept)
  /\ (forall t, In t (entry ip store) -> now <= t -> In t kept)
  /\ (forall t, In t kept -> now - t <= 60 * 1000000000).
Proof.
  cbv zeta. unfold isRateLimited. rewrite pruned_counts.
  assert (Hin : forall t, In t (List.filter (counts now) (entry ip store))
                          <-> In t (entry ip store) /\ now - t <= 60 * 1000000000).
  { intros t. rewrite filter_In. unfold counts. rewrite Z.leb_le. intuition lia. }
  destruct (maxRequestsPerMinute <=? _)%nat eqn:E.
  - rewrite entry_insert, app_nil_r.
    split; [done|]. split; [done|].
    split; [|split]; intros t; rewrite ?Hin; intuition lia.
  - rewrite !entry_insert.
    split; [done|]. split; [done|].
    split; [|split]; intros t; rewrite ?Hin; intuition lia.
Qed.
